(** * Order books: the naive baseline and the optimized variant

    A shallow embedding of [naive_orderbook.py] and [optimized_orderbook.py].

    Orders are Python dicts.  Both books keep *references* to the dict the
    caller passed in, and [amend_order] mutates that dict in place, so the
    embedding has an explicit object store ([Store]) and the books hold
    references ([ref]) into it.

    Prices are modelled as integers: the code only negates prices, compares
    them and uses them as dict keys, and on finite numbers these behave as on
    [Z].  Python's [heapq] is a library; a heap is modelled by the ascending
    list of its elements, so that [heap[0]] is the head, [heappush] inserts
    in order and [heappop] drops the head. *)

From Stdlib Require Import ssreflect.
From stdpp Require Import gmap strings list fin_maps sorting.

#[local] Set Warnings "-deprecated,-clear-no-such-hyp".

Local Open Scope general_if_scope.
Local Open Scope Z_scope.

(** ** Orders and the object store *)

Record Order := mkOrder {
  order_id : Z;
  price : Z;
  quantity : Z;
  side : string
}.

#[global] Instance Order_eq_dec : EqDecision Order.
Proof. solve_decision. Defined.

#[global] Instance Order_inhabited : Inhabited Order :=
  populate (mkOrder 0 0 0 "").

(** [order["quantity"] = new_quantity] *)
Definition set_quantity (o : Order) (new_quantity : Z) : Order :=
  mkOrder (order_id o) (price o) new_quantity (side o).

(** A reference to a dict object, and the store of all dict objects. *)
Abbreviation ref := nat.
Abbreviation Store := (list Order).

(** The caller builds a dict: a new object at the next free address. *)
Definition new_dict (mem : Store) (o : Order) : ref * Store :=
  (length mem, mem ++ [o]).

(** ** Exceptions

    Both failures of [add_order] are Python [ValueError]s, told apart by
    their message; [list.remove] raises a third one. *)

Inductive ValueError :=
  | DuplicateOrderError (id : Z)      (* "Order ID {order_id} already exists" *)
  | InvalidSideError (s : string)     (* "Invalid side: {side}. Must be 'bid' or 'ask'" *)
  | NotInList.                        (* "list.remove(x): x not in list" *)

Inductive result (A : Type) :=
  | Return (a : A)
  | Raise (e : ValueError).
Arguments Return {A} a.
Arguments Raise {A} e.

#[global] Instance ValueError_eq_dec : EqDecision ValueError.
Proof. solve_decision. Defined.

(** ** Python list and heapq primitives *)

(** [x is y or x == y], the test [list.remove] applies to each element. *)
Definition same_or_equal (mem : Store) (x y : ref) : bool :=
  bool_decide (x = y) || bool_decide (mem !!! x = mem !!! y).

(** [l.remove(x)]: drops the first element equal to [x]; [None] stands for
    the [ValueError] raised when there is none. *)
Fixpoint list_remove (mem : Store) (x : ref) (l : list ref) : option (list ref) :=
  match l with
  | [] => None
  | y :: t =>
      if same_or_equal mem y x then Some t
      else cons y <$> list_remove mem x t
  end.

(** [heapq.heappush(heap, item)] *)
Fixpoint heappush (heap : list Z) (item : Z) : list Z :=
  match heap with
  | [] => [item]
  | x :: t => if item <=? x then item :: heap else x :: heappush t item
  end.

(** [heapq.heappop(heap)], the heap that is left. *)
Definition heappop (heap : list Z) : list Z := tail heap.

(** [l.sort(key=...)] is a stable sort.  [before kx ky] says that a key [kx]
    goes in front of an equal or later key [ky]: [Z.leb] for an ascending
    sort, [Z.geb] for [reverse=True] (which keeps equal keys in their
    original order too). *)
Fixpoint sort_insert (before : Z → Z → bool) (key : ref → Z)
    (x : ref) (l : list ref) : list ref :=
  match l with
  | [] => [x]
  | y :: t =>
      if before (key x) (key y) then x :: l
      else y :: sort_insert before key x t
  end.

Definition list_sort (before : Z → Z → bool) (key : ref → Z)
    (l : list ref) : list ref :=
  foldr (sort_insert before key) [] l.

(** ** The optimized order book *)

Module Optimized.

Record OptimizedOrderBook := mkBook {
  orders_by_id : gmap Z ref;
  bids_by_price : gmap Z (list ref);
  asks_by_price : gmap Z (list ref);
  bid_heap : list Z;
  ask_heap : list Z
}.

(** [__init__] *)
Definition init : OptimizedOrderBook := mkBook ∅ ∅ ∅ [] [].

Definition add_order (mem : Store) (self : OptimizedOrderBook)
    (order_dict : ref) : result unit * OptimizedOrderBook :=
  let order_id := order_id (mem !!! order_dict) in
  let price := price (mem !!! order_dict) in
  let side := side (mem !!! order_dict) in
  match orders_by_id self !! order_id with
  | Some _ => (Raise (DuplicateOrderError order_id), self)
  | None =>
      let by_id := <[order_id := order_dict]> (orders_by_id self) in
      if String.eqb side "bid" then
        match bids_by_price self !! price with
        | None =>
            let negated_price := - price in
            (Return (),
             mkBook by_id
                    (<[price := [order_dict]]> (bids_by_price self))
                    (asks_by_price self)
                    (heappush (bid_heap self) negated_price)
                    (ask_heap self))
        | Some l =>
            (Return (),
             mkBook by_id
                    (<[price := l ++ [order_dict]]> (bids_by_price self))
                    (asks_by_price self) (bid_heap self) (ask_heap self))
        end
      else if String.eqb side "ask" then
        match asks_by_price self !! price with
        | None =>
            (Return (),
             mkBook by_id (bids_by_price self)
                    (<[price := [order_dict]]> (asks_by_price self))
                    (bid_heap self)
                    (heappush (ask_heap self) price))
        | Some l =>
            (Return (),
             mkBook by_id (bids_by_price self)
                    (<[price := l ++ [order_dict]]> (asks_by_price self))
                    (bid_heap self) (ask_heap self))
        end
      else
        (Raise (InvalidSideError side),
         mkBook by_id (bids_by_price self) (asks_by_price self)
                (bid_heap self) (ask_heap self))
  end.

(** The book itself is untouched: only the order object changes. *)
Definition amend_order (mem : Store) (self : OptimizedOrderBook)
    (order_id new_quantity : Z) : bool * Store :=
  match orders_by_id self !! order_id with
  | None => (false, mem)
  | Some order =>
      (true, <[order := set_quantity (mem !!! order) new_quantity]> mem)
  end.

(** The bucket part of [delete_order], the same on both sides: [None] when
    [list.remove] raises. *)
Definition remove_from_ladder (mem : Store) (ladder : gmap Z (list ref))
    (price : Z) (order : ref) : option (gmap Z (list ref)) :=
  match ladder !! price with
  | None => Some ladder
  | Some l =>
      match list_remove mem order l with
      | None => None
      | Some [] => Some (delete price ladder)
      | Some l' => Some (<[price := l']> ladder)
      end
  end.

Definition delete_order (mem : Store) (self : OptimizedOrderBook)
    (order_id : Z) : result bool * OptimizedOrderBook :=
  match orders_by_id self !! order_id with
  | None => (Return false, self)
  | Some order =>
      let price := price (mem !!! order) in
      let side := side (mem !!! order) in
      let by_id := delete order_id (orders_by_id self) in
      if String.eqb side "bid" then
        match remove_from_ladder mem (bids_by_price self) price order with
        | None =>
            (Raise NotInList,
             mkBook by_id (bids_by_price self) (asks_by_price self)
                    (bid_heap self) (ask_heap self))
        | Some bids =>
            (Return true,
             mkBook by_id bids (asks_by_price self)
                    (bid_heap self) (ask_heap self))
        end
      else if String.eqb side "ask" then
        match remove_from_ladder mem (asks_by_price self) price order with
        | None =>
            (Raise NotInList,
             mkBook by_id (bids_by_price self) (asks_by_price self)
                    (bid_heap self) (ask_heap self))
        | Some asks =>
            (Return true,
             mkBook by_id (bids_by_price self) asks
                    (bid_heap self) (ask_heap self))
        end
      else
        (Return true,
         mkBook by_id (bids_by_price self) (asks_by_price self)
                (bid_heap self) (ask_heap self))
  end.

Definition lookup_order (self : OptimizedOrderBook) (order_id : Z)
    : option ref :=
  orders_by_id self !! order_id.

(** [side_filter] is [None] for Python's [side=None]. *)
Definition side_is (side_filter : option string) (s : string) : bool :=
  match side_filter with
  | None => true
  | Some s' => String.eqb s' s
  end.

Definition get_orders_at_price (self : OptimizedOrderBook) (price : Z)
    (side_filter : option string) : list ref :=
  let result := [] in
  let result :=
    if side_is side_filter "bid" then
      match bids_by_price self !! price with
      | Some l => result ++ l
      | None => result
      end
    else result in
  let result :=
    if side_is side_filter "ask" then
      match asks_by_price self !! price with
      | Some l => result ++ l
      | None => result
      end
    else result in
  result.

(** The [while self.bid_heap:] loop; the recursive call runs on the heap
    after [heappop].  It returns the order found and the heap left. *)
Fixpoint best_bid_loop (bids : gmap Z (list ref)) (heap : list Z)
    : option ref * list Z :=
  match heap with
  | [] => (None, [])
  | negated_price :: popped =>
      let best_price := - negated_price in
      match bids !! best_price with
      | Some (first :: _) => (Some first, heap)
      | _ => best_bid_loop bids popped
      end
  end.

Fixpoint best_ask_loop (asks : gmap Z (list ref)) (heap : list Z)
    : option ref * list Z :=
  match heap with
  | [] => (None, [])
  | best_price :: popped =>
      match asks !! best_price with
      | Some (first :: _) => (Some first, heap)
      | _ => best_ask_loop asks popped
      end
  end.

Definition get_best_bid (self : OptimizedOrderBook)
    : option ref * OptimizedOrderBook :=
  let '(found, heap) := best_bid_loop (bids_by_price self) (bid_heap self) in
  (found,
   mkBook (orders_by_id self) (bids_by_price self) (asks_by_price self)
          heap (ask_heap self)).

Definition get_best_ask (self : OptimizedOrderBook)
    : option ref * OptimizedOrderBook :=
  let '(found, heap) := best_ask_loop (asks_by_price self) (ask_heap self) in
  (found,
   mkBook (orders_by_id self) (bids_by_price self) (asks_by_price self)
          (bid_heap self) heap).

Definition get_best_bid_ask (self : OptimizedOrderBook)
    : (option ref * option ref) * OptimizedOrderBook :=
  let '(best_bid, self) := get_best_bid self in
  let '(best_ask, self) := get_best_ask self in
  ((best_bid, best_ask), self).

End Optimized.

(** ** The naive order book *)

Module Naive.

Record NaiveOrderBook := mkBook {
  bids : list ref;
  asks : list ref
}.

Definition init : NaiveOrderBook := mkBook [] [].

Definition price_of (mem : Store) (x : ref) : Z := price (mem !!! x).
Definition id_of (mem : Store) (x : ref) : Z := order_id (mem !!! x).

(** [bids.sort(key=lambda x: x["price"], reverse=True)] *)
Definition sort_bids (mem : Store) (l : list ref) : list ref :=
  list_sort Z.geb (price_of mem) l.

(** [asks.sort(key=lambda x: x["price"])] *)
Definition sort_asks (mem : Store) (l : list ref) : list ref :=
  list_sort Z.leb (price_of mem) l.

Definition add_order (mem : Store) (self : NaiveOrderBook)
    (order_dict : ref) : result unit * NaiveOrderBook :=
  let side := side (mem !!! order_dict) in
  if String.eqb side "bid" then
    (Return (), mkBook (sort_bids mem (bids self ++ [order_dict])) (asks self))
  else if String.eqb side "ask" then
    (Return (), mkBook (bids self) (sort_asks mem (asks self ++ [order_dict])))
  else (Raise (InvalidSideError side), self).

(** [for order in l: if order["order_id"] == order_id: ...], the first hit
    with its index. *)
Definition find_id (mem : Store) (order_id : Z) (l : list ref)
    : option (nat * ref) :=
  list_find (λ x, id_of mem x = order_id) l.

(** The sort runs after the quantity is written, on the new store. *)
Definition amend_order (mem : Store) (self : NaiveOrderBook)
    (order_id new_quantity : Z) : bool * Store * NaiveOrderBook :=
  match find_id mem order_id (bids self) with
  | Some (_, order) =>
      let mem' := <[order := set_quantity (mem !!! order) new_quantity]> mem in
      (true, mem', mkBook (sort_bids mem' (bids self)) (asks self))
  | None =>
      match find_id mem order_id (asks self) with
      | Some (_, order) =>
          let mem' :=
            <[order := set_quantity (mem !!! order) new_quantity]> mem in
          (true, mem', mkBook (bids self) (sort_asks mem' (asks self)))
      | None => (false, mem, self)
      end
  end.

Definition delete_order (mem : Store) (self : NaiveOrderBook)
    (order_id : Z) : bool * NaiveOrderBook :=
  match find_id mem order_id (bids self) with
  | Some (i, _) =>
      (true, mkBook (sort_bids mem (delete i (bids self))) (asks self))
  | None =>
      match find_id mem order_id (asks self) with
      | Some (i, _) =>
          (true, mkBook (bids self) (sort_asks mem (delete i (asks self))))
      | None => (false, self)
      end
  end.

Definition lookup_order (mem : Store) (self : NaiveOrderBook)
    (order_id : Z) : option ref :=
  match find_id mem order_id (bids self) with
  | Some (_, order) => Some order
  | None =>
      match find_id mem order_id (asks self) with
      | Some (_, order) => Some order
      | None => None
      end
  end.

Definition at_price (mem : Store) (price : Z) (l : list ref) : list ref :=
  filter (λ x, price_of mem x = price) l.

Definition get_orders_at_price (mem : Store) (self : NaiveOrderBook)
    (price : Z) (side_filter : option string) : list ref :=
  let result := [] in
  let result :=
    if Optimized.side_is side_filter "bid"
    then result ++ at_price mem price (bids self) else result in
  let result :=
    if Optimized.side_is side_filter "ask"
    then result ++ at_price mem price (asks self) else result in
  result.

Definition get_best_bid (self : NaiveOrderBook) : option ref :=
  head (bids self).

Definition get_best_ask (self : NaiveOrderBook) : option ref :=
  head (asks self).

Definition get_best_bid_ask (self : NaiveOrderBook)
    : option ref * option ref :=
  (get_best_bid self, get_best_ask self).

End Naive.

(** * Specification vocabulary *)

Import Optimized.

(** ** The representation invariant *)

(** Every bucket of a ladder is a non-empty list of distinct orders of that
    price and side, each of them the order the index has under its id. *)
Definition ladder_wf (mem : Store) (by_id : gmap Z ref) (s : string)
    (ladder : gmap Z (list ref)) : Prop :=
  ∀ p l, ladder !! p = Some l →
    l ≠ [] ∧ NoDup l ∧
    ∀ r, r ∈ l →
      price (mem !!! r) = p ∧ side (mem !!! r) = s ∧
      by_id !! order_id (mem !!! r) = Some r.

(** Every indexed order of side [s] rests in the ladder at its price. *)
Definition ladder_complete (mem : Store) (by_id : gmap Z ref) (s : string)
    (ladder : gmap Z (list ref)) : Prop :=
  ∀ id r, by_id !! id = Some r → side (mem !!! r) = s →
    ∃ l, ladder !! price (mem !!! r) = Some l ∧ r ∈ l.

(** The heap is in order and holds (the image under [f] of) every price of
    the ladder; [f] is negation for bids and the identity for asks. *)
Definition heap_wf (f : Z → Z) (ladder : gmap Z (list ref))
    (heap : list Z) : Prop :=
  StronglySorted Z.le heap ∧ ∀ p, is_Some (ladder !! p) → f p ∈ heap.

Record wf (mem : Store) (self : OptimizedOrderBook) : Prop := mk_wf {
  wf_by_id : ∀ id r, orders_by_id self !! id = Some r →
               (r < length mem)%nat ∧ order_id (mem !!! r) = id;
  wf_bids : ladder_wf mem (orders_by_id self) "bid" (bids_by_price self);
  wf_asks : ladder_wf mem (orders_by_id self) "ask" (asks_by_price self);
  wf_bids_complete :
    ladder_complete mem (orders_by_id self) "bid" (bids_by_price self);
  wf_asks_complete :
    ladder_complete mem (orders_by_id self) "ask" (asks_by_price self);
  wf_bid_heap : heap_wf Z.opp (bids_by_price self) (bid_heap self);
  wf_ask_heap : heap_wf (λ p, p) (asks_by_price self) (ask_heap self)
}.

(** The states a caller can bring about: building dicts and calling the
    public methods, whatever they return or raise.  [lookup_order] and
    [get_orders_at_price] change nothing and [get_best_bid_ask] is
    [get_best_bid] followed by [get_best_ask]. *)
Inductive reachable : Store → OptimizedOrderBook → Prop :=
  | reach_init : reachable [] init
  | reach_new_dict mem self o :
      reachable mem self → reachable (new_dict mem o).2 self
  | reach_add_order mem self (r : ref) :
      reachable mem self → (r < length mem)%nat →
      reachable mem (add_order mem self r).2
  | reach_amend_order mem self id q :
      reachable mem self → reachable (amend_order mem self id q).2 self
  | reach_delete_order mem self id :
      reachable mem self → reachable mem (delete_order mem self id).2
  | reach_get_best_bid mem self :
      reachable mem self → reachable mem (get_best_bid self).2
  | reach_get_best_ask mem self :
      reachable mem self → reachable mem (get_best_ask self).2.

(** [mem'] has every object of [mem], with the same id, price and side. *)
Definition extends (mem mem' : Store) : Prop :=
  (length mem ≤ length mem')%nat ∧
  ∀ x : ref, (x < length mem)%nat →
    ∃ q, mem' !!! x = set_quantity (mem !!! x) q.

(** What [remove_from_ladder] leaves when the bucket at [p] shrinks to
    [l']. *)
Definition ladder_without (ladder : gmap Z (list ref)) (p : Z) (l' : list ref)
    : gmap Z (list ref) :=
  match l' with
  | [] => delete p ladder
  | _ => <[p := l']> ladder
  end.


(** Both drain loops are one loop, up to the negation of bid prices. *)
Fixpoint drain (f : Z → Z) (ladder : gmap Z (list ref)) (heap : list Z)
    : option ref * list Z :=
  match heap with
  | [] => (None, [])
  | x :: popped =>
      match ladder !! f x with
      | Some (first :: _) => (Some first, heap)
      | _ => drain f ladder popped
      end
  end.


(** A heap entry is live when the ladder has a non-empty bucket for it. *)
Definition live_entry (f : Z → Z) (ladder : gmap Z (list ref)) (x : Z)
    : Prop :=
  ∃ first rest, ladder !! f x = Some (first :: rest).


(** ** Best price by direct enumeration of the ladder *)

(** An order is live on a side when the index holds it and it is of that
    side. *)
Definition live_on (mem : Store) (self : OptimizedOrderBook) (s : string)
    (r : ref) : Prop :=
  ∃ id, orders_by_id self !! id = Some r ∧ side (mem !!! r) = s.

Definition max_price (ladder : gmap Z (list ref)) : option Z :=
  match elements (dom ladder) with
  | [] => None
  | p :: ps => Some (foldr Z.max p ps)
  end.

Definition min_price (ladder : gmap Z (list ref)) : option Z :=
  match elements (dom ladder) with
  | [] => None
  | p :: ps => Some (foldr Z.min p ps)
  end.

(** The oldest order at the highest bid price, read off the ladder. *)
Definition enumerate_best_bid (self : OptimizedOrderBook) : option ref :=
  p ← max_price (bids_by_price self);
  l ← bids_by_price self !! p;
  head l.

(** The oldest order at the lowest ask price, read off the ladder. *)
Definition enumerate_best_ask (self : OptimizedOrderBook) : option ref :=
  p ← min_price (asks_by_price self);
  l ← asks_by_price self !! p;
  head l.

(** ** The scenario of the specification *)

Definition scenario_mem : Store :=
  [mkOrder 1 100 10 "bid"; mkOrder 2 101 5 "bid"; mkOrder 4 102 15 "ask"].

Definition scenario_book : OptimizedOrderBook :=
  let b := (add_order scenario_mem init 0%nat).2 in
  let b := (add_order scenario_mem b 1%nat).2 in
  (add_order scenario_mem b 2%nat).2.

(** ** What a best-price query must do

    [get_best_bid] agrees with the enumeration, finds nothing exactly when no
    bid is live, returns a live bid of the highest live price that heads its
    bucket, pops only prices without a bucket and touches nothing else. *)
Definition best_bid_correct (mem : Store) (self : OptimizedOrderBook) : Prop :=
  let found := (get_best_bid self).1 in
  let self' := (get_best_bid self).2 in
  found = enumerate_best_bid self ∧
  (found = None ↔ ∀ r, ¬ live_on mem self "bid" r) ∧
  (∀ r, found = Some r →
     live_on mem self "bid" r ∧
     (∀ r', live_on mem self "bid" r' →
        price (mem !!! r') ≤ price (mem !!! r)) ∧
     ∃ rest, bids_by_price self !! price (mem !!! r) = Some (r :: rest)) ∧
  (∃ stale, bid_heap self = stale ++ bid_heap self' ∧
     ∀ x, x ∈ stale → bids_by_price self !! (- x) = None) ∧
  orders_by_id self' = orders_by_id self ∧
  bids_by_price self' = bids_by_price self ∧
  asks_by_price self' = asks_by_price self ∧
  ask_heap self' = ask_heap self.

Definition best_ask_correct (mem : Store) (self : OptimizedOrderBook) : Prop :=
  let found := (get_best_ask self).1 in
  let self' := (get_best_ask self).2 in
  found = enumerate_best_ask self ∧
  (found = None ↔ ∀ r, ¬ live_on mem self "ask" r) ∧
  (∀ r, found = Some r →
     live_on mem self "ask" r ∧
     (∀ r', live_on mem self "ask" r' →
        price (mem !!! r) ≤ price (mem !!! r')) ∧
     ∃ rest, asks_by_price self !! price (mem !!! r) = Some (r :: rest)) ∧
  (∃ stale, ask_heap self = stale ++ ask_heap self' ∧
     ∀ x, x ∈ stale → asks_by_price self !! x = None) ∧
  orders_by_id self' = orders_by_id self ∧
  bids_by_price self' = bids_by_price self ∧
  asks_by_price self' = asks_by_price self ∧
  bid_heap self' = bid_heap self.

(** ** Buckets and batches *)

(** The orders resting at a price: the bucket, or nothing. *)
Definition bucket (ladder : gmap Z (list ref)) (p : Z) : list ref :=
  default [] (ladder !! p).

(** [for o in orders: ob.add_order(o)]: the first exception ends it. *)
Fixpoint add_orders (mem : Store) (self : OptimizedOrderBook)
    (orders : list ref) : result unit * OptimizedOrderBook :=
  match orders with
  | [] => (Return (), self)
  | o :: rest =>
      match add_order mem self o with
      | (Return _, self') => add_orders mem self' rest
      | (Raise e, self') => (Raise e, self')
      end
  end.

(** The book of the scenario once order 2 is deleted: 101 stays in the bid
    heap, stale. *)
Definition scenario_after_delete : OptimizedOrderBook :=
  (delete_order scenario_mem scenario_book 2).2.

(** A dict with a side that is neither "bid" nor "ask". *)
Definition bad_side_mem : Store := [mkOrder 1 100 10 "buy"].

(** Two dicts with the same identifier. *)
Definition duplicate_mem : Store :=
  [mkOrder 5 100 10 "bid"; mkOrder 5 105 3 "ask"].

(** Three bids at one price, for the FIFO scenario. *)
Definition fifo_mem : Store :=
  [mkOrder 10 100 1 "bid"; mkOrder 11 100 2 "bid"; mkOrder 12 100 3 "bid"].

(** ** Calls and what the caller sees

    A caller drives either book through its public methods.  [AddOrder o]
    is [ob.add_order({...})] with a dict built for the call.  What comes back
    is observed by value: an order by its four attributes, as it is when the
    call returns. *)
Inductive call :=
  | AddOrder (o : Order)
  | AmendOrder (order_id new_quantity : Z)
  | DeleteOrder (order_id : Z)
  | LookupOrder (order_id : Z)
  | GetOrdersAtPrice (price : Z) (side_filter : option string)
  | GetBestBid
  | GetBestAsk
  | GetBestBidAsk.

Inductive outcome :=
  | Raised (e : ValueError)
  | Done                                  (* [add_order] returns [None] *)
  | Bool (b : bool)
  | AnOrder (o : option Order)
  | Orders (l : list Order)
  | TwoOrders (bid ask : option Order).

Definition of_unit (res : result unit) : outcome :=
  match res with Return _ => Done | Raise e => Raised e end.

Definition of_bool (res : result bool) : outcome :=
  match res with Return b => Bool b | Raise e => Raised e end.

Definition optimized_call (st : Store * OptimizedOrderBook) (c : call)
    : outcome * (Store * OptimizedOrderBook) :=
  let '(mem, self) := st in
  match c with
  | AddOrder o =>
      let '(order_dict, mem) := new_dict mem o in
      let '(res, self) := add_order mem self order_dict in
      (of_unit res, (mem, self))
  | AmendOrder id q =>
      let '(found, mem) := amend_order mem self id q in
      (Bool found, (mem, self))
  | DeleteOrder id =>
      let '(res, self) := delete_order mem self id in
      (of_bool res, (mem, self))
  | LookupOrder id =>
      (AnOrder ((mem !!!.) <$> lookup_order self id), (mem, self))
  | GetOrdersAtPrice p sf =>
      (Orders ((mem !!!.) <$> get_orders_at_price self p sf), (mem, self))
  | GetBestBid =>
      let '(found, self) := get_best_bid self in
      (AnOrder ((mem !!!.) <$> found), (mem, self))
  | GetBestAsk =>
      let '(found, self) := get_best_ask self in
      (AnOrder ((mem !!!.) <$> found), (mem, self))
  | GetBestBidAsk =>
      let '((bid, ask), self) := get_best_bid_ask self in
      (TwoOrders ((mem !!!.) <$> bid) ((mem !!!.) <$> ask), (mem, self))
  end.

Definition naive_call (st : Store * Naive.NaiveOrderBook) (c : call)
    : outcome * (Store * Naive.NaiveOrderBook) :=
  let '(mem, self) := st in
  match c with
  | AddOrder o =>
      let '(order_dict, mem) := new_dict mem o in
      let '(res, self) := Naive.add_order mem self order_dict in
      (of_unit res, (mem, self))
  | AmendOrder id q =>
      let '(found, mem, self) := Naive.amend_order mem self id q in
      (Bool found, (mem, self))
  | DeleteOrder id =>
      let '(found, self) := Naive.delete_order mem self id in
      (Bool found, (mem, self))
  | LookupOrder id =>
      (AnOrder ((mem !!!.) <$> Naive.lookup_order mem self id), (mem, self))
  | GetOrdersAtPrice p sf =>
      (Orders ((mem !!!.) <$> Naive.get_orders_at_price mem self p sf),
       (mem, self))
  | GetBestBid => (AnOrder ((mem !!!.) <$> Naive.get_best_bid self), (mem, self))
  | GetBestAsk => (AnOrder ((mem !!!.) <$> Naive.get_best_ask self), (mem, self))
  | GetBestBidAsk =>
      let '(bid, ask) := Naive.get_best_bid_ask self in
      (TwoOrders ((mem !!!.) <$> bid) ((mem !!!.) <$> ask), (mem, self))
  end.

(** The outcomes of a sequence of calls, in order. *)
Fixpoint run {S : Type} (step : S → call → outcome * S) (st : S)
    (cs : list call) : list outcome :=
  match cs with
  | [] => []
  | c :: cs => let '(out, st) := step st c in out :: run step st cs
  end.

(** Every added order has a side of the book and an identifier that no
    order of the book has at that time; [live] is the set of identifiers
    added and not deleted so far. *)
Fixpoint fresh_ids (live : gset Z) (cs : list call) : bool :=
  match cs with
  | [] => true
  | AddOrder o :: cs =>
      bool_decide (order_id o ∉ live)
      && (String.eqb (side o) "bid" || String.eqb (side o) "ask")
      && fresh_ids ({[order_id o]} ∪ live) cs
  | DeleteOrder id :: cs => fresh_ids (live ∖ {[id]}) cs
  | _ :: cs => fresh_ids live cs
  end.

(** The simulation: the same store, the same live orders, and each naive
    list, cut down to one price, is that price's bucket. *)
Record similar (mem : Store) (nb : Naive.NaiveOrderBook)
    (ob : OptimizedOrderBook) (live : gset Z) : Prop := mk_similar {
  sim_wf : wf mem ob;
  sim_live : dom (orders_by_id ob) = live;
  sim_sides : ∀ id r, orders_by_id ob !! id = Some r →
                side (mem !!! r) = "bid" ∨ side (mem !!! r) = "ask";
  sim_bids_sorted :
    StronglySorted (λ x y, Naive.price_of mem y ≤ Naive.price_of mem x)
                   (Naive.bids nb);
  sim_asks_sorted :
    StronglySorted (λ x y, Naive.price_of mem x ≤ Naive.price_of mem y)
                   (Naive.asks nb);
  sim_bids : ∀ p, Naive.at_price mem p (Naive.bids nb)
                  = bucket (bids_by_price ob) p;
  sim_asks : ∀ p, Naive.at_price mem p (Naive.asks nb)
                  = bucket (asks_by_price ob) p
}.

(** The calls of the specification's first scenario. *)
Definition scenario_calls : list call :=
  [AddOrder (mkOrder 1 100 10 "bid"); AddOrder (mkOrder 2 101 5 "bid");
   AddOrder (mkOrder 4 102 15 "ask"); GetBestBidAsk;
   AmendOrder 1 20; LookupOrder 1; GetOrdersAtPrice 100 None;
   DeleteOrder 2; GetBestBidAsk; GetBestBid; DeleteOrder 2;
   AddOrder (mkOrder 2 100 7 "bid"); GetOrdersAtPrice 100 (Some "bid");
   DeleteOrder 1; GetBestBid; GetBestAsk; LookupOrder 1].

(** ** The naive book on its own *)

(** The states of the naive book a caller can bring about.  It has no check
    on identifiers, so [add_order] may be given any dict, also one that is
    in the book already. *)
Inductive naive_reachable : Store → Naive.NaiveOrderBook → Prop :=
  | nreach_init : naive_reachable [] Naive.init
  | nreach_new_dict mem nb o :
      naive_reachable mem nb → naive_reachable (new_dict mem o).2 nb
  | nreach_add_order mem nb (r : ref) :
      naive_reachable mem nb → (r < length mem)%nat →
      naive_reachable mem (Naive.add_order mem nb r).2
  | nreach_amend_order mem nb id q :
      naive_reachable mem nb →
      naive_reachable (Naive.amend_order mem nb id q).1.2
                      (Naive.amend_order mem nb id q).2
  | nreach_delete_order mem nb id :
      naive_reachable mem nb →
      naive_reachable mem (Naive.delete_order mem nb id).2.

(** Both lists hold allocated orders of their side, bids by falling and
    asks by rising price. *)
Record naive_wf (mem : Store) (nb : Naive.NaiveOrderBook) : Prop :=
  mk_naive_wf {
  nwf_allocated : ∀ x : ref, x ∈ Naive.bids nb ∨ x ∈ Naive.asks nb →
                    (x < length mem)%nat;
  nwf_bids_side : ∀ x : ref, x ∈ Naive.bids nb → side (mem !!! x) = "bid";
  nwf_asks_side : ∀ x : ref, x ∈ Naive.asks nb → side (mem !!! x) = "ask";
  nwf_bids_sorted :
    StronglySorted (λ x y, Naive.price_of mem y ≤ Naive.price_of mem x)
                   (Naive.bids nb);
  nwf_asks_sorted :
    StronglySorted (λ x y, Naive.price_of mem x ≤ Naive.price_of mem y)
                   (Naive.asks nb)
}.

(** The naive book of the scenario, and its store. *)
Definition naive_scenario_book : Naive.NaiveOrderBook :=
  let b := (Naive.add_order scenario_mem Naive.init 0%nat).2 in
  let b := (Naive.add_order scenario_mem b 1%nat).2 in
  (Naive.add_order scenario_mem b 2%nat).2.

(** ** Price levels *)

(** The ladder entry for the orders resting at a price: no key when there is
    none, the list itself otherwise. *)
Definition price_level (l : list ref) : option (list ref) :=
  match l with
  | [] => None
  | _ => Some l
  end.

(** Every price key of either ladder maps to a non-empty list of orders of
    exactly that price, each the order the index holds under its
    identifier. *)
Definition buckets_ok (mem : Store) (self : OptimizedOrderBook) : Prop :=
  ∀ ladder p l,
    ladder = bids_by_price self ∨ ladder = asks_by_price self →
    ladder !! p = Some l →
    l ≠ [] ∧
    Forall (λ r : ref, price (mem !!! r) = p ∧
                       lookup_order self (order_id (mem !!! r)) = Some r) l.

(** * Facts about the primitives *)

Section primitives.
Implicit Types (mem : Store) (l : list ref) (heap : list Z).

Lemma heappush_elem heap item x :
  x ∈ heappush heap item ↔ x = item ∨ x ∈ heap.
Proof.
  induction heap as [|y heap IH]; simpl.
  - rewrite list_elem_of_singleton. set_solver.
  - destruct (item <=? y); rewrite !elem_of_cons ?IH; naive_solver.
Qed.

Lemma heappush_sorted heap item :
  StronglySorted Z.le heap → StronglySorted Z.le (heappush heap item).
Proof.
  induction 1 as [|y heap Hs IH Hall]; simpl.
  - repeat constructor.
  - destruct (Z.leb_spec item y).
    + constructor; [by constructor|].
      constructor; [done|].
      eapply Forall_impl; [exact Hall|]. intros; simpl in *; lia.
    + constructor; [done|].
      apply Forall_forall. intros x [->|Hx]%heappush_elem; [lia|].
      by eapply Forall_forall in Hall.
Qed.

(** When [x] is in the list and no other element is an equal dict,
    [remove] takes out exactly [x] and keeps the rest in order. *)
Lemma list_remove_spec mem x l :
  x ∈ l →
  (∀ y, y ∈ l → mem !!! y = mem !!! x → y = x) →
  ∃ l1 l2, l = l1 ++ x :: l2 ∧ x ∉ l1 ∧
           list_remove mem x l = Some (l1 ++ l2).
Proof.
  induction l as [|y l IH]; intros Hin Huniq; [by apply elem_of_nil in Hin|].
  simpl. unfold same_or_equal.
  destruct (decide (y = x)) as [->|Hne].
  - exists [], l. rewrite bool_decide_eq_true_2 //=. split_and!; [done| |done].
    apply not_elem_of_nil.
  - rewrite (bool_decide_eq_false_2 (y = x)) //=.
    assert (mem !!! y ≠ mem !!! x) as Hval.
    { intros Heq. apply Hne, Huniq; [left|done]. }
    rewrite bool_decide_eq_false_2 //=.
    apply elem_of_cons in Hin as [?|Hin]; [done|].
    destruct IH as (l1 & l2 & -> & Hnin & ->); [done| |].
    { intros z Hz. apply Huniq. by right. }
    exists (y :: l1), l2. split_and!; [done| |done].
    rewrite not_elem_of_cons. split; [congruence|done].
Qed.

Lemma lookup_total_new_dict mem o (x : ref) :
  (x < length mem)%nat → (new_dict mem o).2 !!! x = mem !!! x.
Proof. intros. simpl. by rewrite lookup_total_app_l. Qed.

(** Writing a quantity changes no identifier, price or side anywhere. *)
Lemma lookup_total_set_quantity mem (r x : ref) q :
  ∃ q', (<[r := set_quantity (mem !!! r) q]> mem) !!! x
        = set_quantity (mem !!! x) q'.
Proof.
  destruct (decide (r = x)) as [->|].
  - destruct (decide (x < length mem)%nat).
    + exists q. by rewrite list_lookup_total_insert_eq.
    + exists (quantity (mem !!! x)). rewrite list_insert_ge; [lia|].
      by destruct (mem !!! x).
  - exists (quantity (mem !!! x)). rewrite list_lookup_total_insert_ne //.
    by destruct (mem !!! x).
Qed.
End primitives.

(** * Facts about the optimized book *)

Section invariant.
Implicit Types (mem : Store) (by_id : gmap Z ref)
  (ladder : gmap Z (list ref)) (heap : list Z) (self : OptimizedOrderBook).

Lemma extends_new_dict mem o : extends mem (new_dict mem o).2.
Proof.
  split; simpl; [rewrite length_app; lia|].
  intros x Hx. exists (quantity (mem !!! x)).
  rewrite lookup_total_app_l //. by destruct (mem !!! x).
Qed.

Lemma extends_amend mem self id q : extends mem (amend_order mem self id q).2.
Proof.
  unfold amend_order. destruct (orders_by_id self !! id) as [r|]; simpl.
  - split; [by rewrite length_insert|].
    intros x _. apply lookup_total_set_quantity.
  - split; [done|]. intros x _. exists (quantity (mem !!! x)).
    by destruct (mem !!! x).
Qed.

Lemma wf_extends mem mem' self : extends mem mem' → wf mem self → wf mem' self.
Proof.
  intros [Hlen Hext] [Hid Hb Ha Hbc Hac Hbh Hah].
  assert (Hkeep : ∀ id r, orders_by_id self !! id = Some r →
    order_id (mem' !!! r) = order_id (mem !!! r) ∧
    price (mem' !!! r) = price (mem !!! r) ∧
    side (mem' !!! r) = side (mem !!! r)).
  { intros id r [Hr _]%Hid. destruct (Hext r Hr) as [q' ->]. done. }
  assert (Hladder : ∀ s ladder, ladder_wf mem (orders_by_id self) s ladder →
    ladder_wf mem' (orders_by_id self) s ladder).
  { intros s ladder Hl p l Hpl. destruct (Hl p l Hpl) as (? & ? & Hel).
    split_and!; [done..|]. intros r Hr. destruct (Hel r Hr) as (? & ? & Hr').
    destruct (Hkeep _ _ Hr') as (-> & -> & ->). done. }
  assert (Hcomplete : ∀ s ladder,
    ladder_complete mem (orders_by_id self) s ladder →
    ladder_complete mem' (orders_by_id self) s ladder).
  { intros s ladder Hl id r Hr Hs.
    destruct (Hkeep _ _ Hr) as (_ & Hp & Hs'). rewrite Hp.
    apply (Hl id r Hr). congruence. }
  split; auto.
  intros id r Hr. destruct (Hkeep _ _ Hr) as (-> & _).
  destruct (Hid id r Hr). split; [lia|done].
Qed.

Lemma wf_init : wf [] init.
Proof.
  split; simpl; try done.
  - split; [constructor|]. intros p [? ?]. done.
  - split; [constructor|]. intros p [? ?]. done.
Qed.

(** *** Ladders under [add_order] *)

Lemma ladder_wf_fresh_id mem by_id s ladder id (r : ref) :
  by_id !! id = None →
  ladder_wf mem by_id s ladder →
  ladder_wf mem (<[id := r]> by_id) s ladder.
Proof.
  intros Hfresh Hl p l Hpl. destruct (Hl p l Hpl) as (? & ? & Hel).
  split_and!; [done..|]. intros x Hx. destruct (Hel x Hx) as (? & ? & Hx').
  split_and!; [done..|]. rewrite lookup_insert_ne //. congruence.
Qed.

Lemma ladder_wf_append mem by_id s ladder (r : ref) old :
  ladder_wf mem by_id s ladder →
  by_id !! order_id (mem !!! r) = Some r →
  side (mem !!! r) = s →
  (old = [] ∧ ladder !! price (mem !!! r) = None ∨
   ladder !! price (mem !!! r) = Some old ∧ r ∉ old) →
  ladder_wf mem by_id s (<[price (mem !!! r) := old ++ [r]]> ladder).
Proof.
  intros Hl Hr Hs Hold p l.
  destruct (decide (p = price (mem !!! r))) as [->|Hne].
  - rewrite lookup_insert_eq. intros [= <-]. split_and!.
    + by destruct old.
    + apply NoDup_app. split_and!.
      * destruct Hold as [[-> _]|[Hold _]]; [constructor|].
        by destruct (Hl _ _ Hold) as (_ & ? & _).
      * intros x Hx ->%list_elem_of_singleton.
        destruct Hold as [[-> _]|[_ Hnin]]; [by apply elem_of_nil in Hx|done].
      * apply NoDup_singleton.
    + intros x [Hx| ->%list_elem_of_singleton]%elem_of_app; [|done].
      destruct Hold as [[-> _]|[Hold _]]; [by apply elem_of_nil in Hx|].
      destruct (Hl _ _ Hold) as (_ & _ & Hel). by apply Hel.
  - rewrite lookup_insert_ne //. apply Hl.
Qed.

Lemma ladder_complete_other_side mem by_id s ladder id (r : ref) :
  side (mem !!! r) ≠ s →
  ladder_complete mem by_id s ladder →
  ladder_complete mem (<[id := r]> by_id) s ladder.
Proof.
  intros Hs Hl id' r'. destruct (decide (id = id')) as [->|].
  - rewrite lookup_insert_eq. intros [= <-] ?. done.
  - rewrite lookup_insert_ne //. apply Hl.
Qed.

Lemma ladder_complete_append mem by_id ladder s id (r : ref) old :
  (old = [] ∧ ladder !! price (mem !!! r) = None ∨
   ladder !! price (mem !!! r) = Some old) →
  ladder_complete mem by_id s ladder →
  ladder_complete mem (<[id := r]> by_id) s
    (<[price (mem !!! r) := old ++ [r]]> ladder).
Proof.
  intros Hold Hl id' r' Hr' Hs.
  destruct (decide (price (mem !!! r') = price (mem !!! r))) as [Heq|Hne].
  - rewrite Heq lookup_insert_eq. eexists; split; [done|].
    apply elem_of_app. destruct (decide (r' = r)) as [->|Hrr].
    { right. by apply list_elem_of_singleton. }
    left. destruct (decide (id = id')) as [->|].
    { rewrite lookup_insert_eq in Hr'. congruence. }
    rewrite lookup_insert_ne // in Hr'.
    destruct (Hl _ _ Hr' Hs) as (l & Hl' & Hin). rewrite Heq in Hl'.
    destruct Hold as [[_ Hold]|Hold]; congruence.
  - rewrite lookup_insert_ne //. destruct (decide (id = id')) as [->|].
    { rewrite lookup_insert_eq in Hr'. congruence. }
    rewrite lookup_insert_ne // in Hr'. by apply (Hl id').
Qed.

Lemma heap_wf_push f ladder heap p l :
  heap_wf f ladder heap →
  heap_wf f (<[p := l]> ladder) (heappush heap (f p)).
Proof.
  intros [Hs Hin]. split; [by apply heappush_sorted|].
  intros p' Hp'. apply heappush_elem.
  destruct (decide (p = p')) as [->|]; [by left|right].
  rewrite lookup_insert_ne // in Hp'. by apply Hin.
Qed.

Lemma heap_wf_update f ladder heap p l :
  is_Some (ladder !! p) →
  heap_wf f ladder heap → heap_wf f (<[p := l]> ladder) heap.
Proof.
  intros Hp [Hs Hin]. split; [done|]. intros p' Hp'. apply Hin.
  destruct (decide (p = p')) as [->|]; [done|].
  by rewrite lookup_insert_ne in Hp'.
Qed.

Lemma heap_wf_delete f ladder heap p :
  heap_wf f ladder heap → heap_wf f (delete p ladder) heap.
Proof.
  intros [Hs Hin]. split; [done|]. intros p' Hp'. apply Hin.
  destruct (decide (p = p')) as [->|].
  - rewrite lookup_delete_eq in Hp'. by destruct Hp'.
  - by rewrite lookup_delete_ne in Hp'.
Qed.

Lemma wf_add_order mem self (r : ref) :
  (r < length mem)%nat → wf mem self → wf mem (add_order mem self r).2.
Proof.
  intros Hr Hwf. pose proof Hwf as [Hid Hb Ha Hbc Hac Hbh Hah].
  unfold add_order.
  destruct (orders_by_id self !! order_id (mem !!! r)) as [?|] eqn:Hfresh;
    [done|].
  assert (Hid' : ∀ id x,
    <[order_id (mem !!! r) := r]> (orders_by_id self) !! id = Some x →
    (x < length mem)%nat ∧ order_id (mem !!! x) = id).
  { intros id x. destruct (decide (order_id (mem !!! r) = id)) as [<-|].
    - rewrite lookup_insert_eq. by intros [= <-].
    - rewrite lookup_insert_ne //. apply Hid. }
  assert (Hnew : <[order_id (mem !!! r) := r]> (orders_by_id self)
                 !! order_id (mem !!! r) = Some r)
    by apply lookup_insert_eq.
  assert (Habsent : ∀ s ladder l,
    ladder_wf mem (orders_by_id self) s ladder →
    ladder !! price (mem !!! r) = Some l → r ∉ l).
  { intros s ladder l Hl Hpl Hin.
    destruct (Hl _ _ Hpl) as (_ & _ & Hel).
    destruct (Hel r Hin) as (_ & _ & ?). congruence. }
  destruct (String.eqb (side (mem !!! r)) "bid") eqn:Hbid.
  { apply String.eqb_eq in Hbid.
    assert (side (mem !!! r) ≠ "ask") by (rewrite Hbid; done).
    destruct (bids_by_price self !! price (mem !!! r)) as [l|] eqn:Hp;
      simpl; split; simpl; auto using ladder_wf_fresh_id,
        ladder_complete_other_side.
    - apply ladder_wf_append; auto using ladder_wf_fresh_id.
      right. split; [done|]. eauto.
    - apply ladder_complete_append; auto.
    - apply heap_wf_update; auto.
    - apply (ladder_wf_append _ _ _ _ _ []); auto using ladder_wf_fresh_id.
    - apply (ladder_complete_append _ _ _ _ _ _ []); auto.
    - by apply (heap_wf_push Z.opp). }
  destruct (String.eqb (side (mem !!! r)) "ask") eqn:Hask.
  { apply String.eqb_eq in Hask.
    assert (side (mem !!! r) ≠ "bid") by (rewrite Hask; done).
    destruct (asks_by_price self !! price (mem !!! r)) as [l|] eqn:Hp;
      simpl; split; simpl; auto using ladder_wf_fresh_id,
        ladder_complete_other_side.
    - apply ladder_wf_append; auto using ladder_wf_fresh_id.
      right. split; [done|]. eauto.
    - apply ladder_complete_append; auto.
    - apply heap_wf_update; auto.
    - apply (ladder_wf_append _ _ _ _ _ []); auto using ladder_wf_fresh_id.
    - apply (ladder_complete_append _ _ _ _ _ _ []); auto.
    - by apply (heap_wf_push (λ p, p)). }
  apply String.eqb_neq in Hbid, Hask.
  simpl; split; simpl; auto using ladder_wf_fresh_id,
    ladder_complete_other_side.
Qed.

(** *** Ladders under [delete_order] *)

Lemma lookup_ladder_without ladder p l' p' :
  ladder_without ladder p l' !! p'
  = if decide (p = p')
    then (match l' with [] => None | _ => Some l' end)
    else ladder !! p'.
Proof.
  unfold ladder_without. case_decide as Hp.
  - subst. destruct l'; [apply lookup_delete_eq|apply lookup_insert_eq].
  - destruct l'; [by apply lookup_delete_ne|by apply lookup_insert_ne].
Qed.

Lemma remove_from_ladder_spec mem by_id s ladder (r : ref) l :
  ladder_wf mem by_id s ladder →
  ladder !! price (mem !!! r) = Some l → r ∈ l →
  ∃ l1 l2, l = l1 ++ r :: l2 ∧
    remove_from_ladder mem ladder (price (mem !!! r)) r
    = Some (ladder_without ladder (price (mem !!! r)) (l1 ++ l2)).
Proof.
  intros Hl Hp Hin. destruct (Hl _ _ Hp) as (_ & _ & Hel).
  destruct (list_remove_spec mem r l) as (l1 & l2 & -> & _ & Hrem); [done| |].
  { intros y Hy Heq. destruct (Hel y Hy) as (_ & _ & Hy').
    destruct (Hel r Hin) as (_ & _ & Hr'). rewrite Heq in Hy'. congruence. }
  exists l1, l2. split; [done|].
  unfold remove_from_ladder, ladder_without. rewrite Hp Hrem.
  by destruct (l1 ++ l2).
Qed.

Lemma ladder_wf_remove mem by_id s ladder (r : ref) p l1 l2 :
  ladder_wf mem by_id s ladder →
  ladder !! p = Some (l1 ++ r :: l2) →
  ladder_wf mem by_id s (ladder_without ladder p (l1 ++ l2)) ∧
  ∀ p' l', ladder_without ladder p (l1 ++ l2) !! p' = Some l' → r ∉ l'.
Proof.
  intros Hl Hp. destruct (Hl _ _ Hp) as (_ & Hnd & Hel).
  assert (r ∉ l1 ++ l2) as Hnin.
  { apply NoDup_app in Hnd as (_ & Hd & [? _]%NoDup_cons).
    rewrite elem_of_app. intros [Hr|Hr]; [|done].
    apply (Hd r Hr). by left. }
  assert (∀ x, x ∈ l1 ++ l2 → x ∈ l1 ++ r :: l2) as Hsub.
  { intros x. rewrite !elem_of_app elem_of_cons. naive_solver. }
  split.
  - intros p' l'. rewrite lookup_ladder_without. case_decide as Hpp.
    + subst p'. destruct (l1 ++ l2) as [|y t] eqn:Hl12; [done|].
      intros [= <-]. split_and!; [done| |by auto].
      rewrite -Hl12. apply NoDup_app in Hnd as (? & Hd & [? ?]%NoDup_cons).
      apply NoDup_app. split_and!; [done| |done].
      intros x Hx Hx'. apply (Hd x Hx). by right.
    + apply Hl.
  - intros p' l'. rewrite lookup_ladder_without. case_decide as Hpp.
    + destruct (l1 ++ l2) as [|y t] eqn:Hl12; [done|]. by intros [= <-].
    + intros Hp' Hin. destruct (Hl _ _ Hp') as (_ & _ & Hel').
      destruct (Hel' r Hin) as (Hpr & _).
      destruct (Hel r) as (Hpr' & _); [|congruence].
      apply elem_of_app. right. by left.
Qed.

Lemma ladder_wf_delete_id mem by_id s ladder id (r : ref) :
  by_id !! id = Some r →
  (∀ p l, ladder !! p = Some l → r ∉ l) →
  ladder_wf mem by_id s ladder →
  ladder_wf mem (delete id by_id) s ladder.
Proof.
  intros Hr Hnin Hl p l Hpl. destruct (Hl p l Hpl) as (? & ? & Hel).
  split_and!; [done..|]. intros x Hx. destruct (Hel x Hx) as (? & ? & Hx').
  split_and!; [done..|]. rewrite lookup_delete_ne //.
  intros Heq. apply (Hnin p l Hpl). rewrite -Heq Hr in Hx'.
  by injection Hx' as ->.
Qed.

Lemma ladder_complete_delete_id mem by_id s ladder id :
  ladder_complete mem by_id s ladder →
  ladder_complete mem (delete id by_id) s ladder.
Proof.
  intros Hl id' r'. destruct (decide (id = id')) as [->|].
  - by rewrite lookup_delete_eq.
  - rewrite lookup_delete_ne //. apply Hl.
Qed.

Lemma ladder_complete_remove mem by_id s ladder id (r : ref) p l1 l2 :
  (∀ id' r', by_id !! id' = Some r' → order_id (mem !!! r') = id') →
  by_id !! id = Some r →
  ladder !! p = Some (l1 ++ r :: l2) →
  ladder_complete mem by_id s ladder →
  ladder_complete mem (delete id by_id) s
    (ladder_without ladder p (l1 ++ l2)).
Proof.
  intros Hid Hr Hp Hl id' r'. destruct (decide (id = id')) as [->|Hne].
  { by rewrite lookup_delete_eq. }
  rewrite lookup_delete_ne //. intros Hr' Hs.
  destruct (Hl _ _ Hr' Hs) as (l & Hl' & Hin).
  assert (r' ≠ r) as Hrr.
  { intros ->. apply Hne. rewrite -(Hid _ _ Hr) -(Hid _ _ Hr'). done. }
  rewrite lookup_ladder_without. case_decide as Hpp.
  - subst p. rewrite Hp in Hl'. injection Hl' as <-.
    assert (r' ∈ l1 ++ l2) as Hin'.
    { revert Hin. rewrite !elem_of_app elem_of_cons. naive_solver. }
    destruct (l1 ++ l2) as [|y t]; [by apply elem_of_nil in Hin'|eauto].
  - eauto.
Qed.

Lemma heap_wf_without f ladder heap p l' :
  is_Some (ladder !! p) →
  heap_wf f ladder heap → heap_wf f (ladder_without ladder p l') heap.
Proof.
  intros Hp Hh. unfold ladder_without.
  destruct l'; [by apply heap_wf_delete|by apply heap_wf_update].
Qed.

Lemma wf_delete_order mem self id :
  wf mem self →
  wf mem (delete_order mem self id).2 ∧
  (delete_order mem self id).1
  = Return (bool_decide (is_Some (orders_by_id self !! id))).
Proof.
  intros Hwf. pose proof Hwf as [Hid Hb Ha Hbc Hac Hbh Hah].
  unfold delete_order.
  destruct (orders_by_id self !! id) as [r|] eqn:Hr; [|done].
  rewrite (bool_decide_eq_true_2 (is_Some (Some r))) //.
  assert (Hid' : ∀ id' r', orders_by_id self !! id' = Some r' →
            order_id (mem !!! r') = id') by (intros; by apply Hid).
  assert (Hsub : ∀ id' x, delete id (orders_by_id self) !! id' = Some x →
            (x < length mem)%nat ∧ order_id (mem !!! x) = id').
  { intros id' x. destruct (decide (id = id')) as [->|].
    - by rewrite lookup_delete_eq.
    - rewrite lookup_delete_ne //. apply Hid. }
  assert (Hside : ∀ s ladder, ladder_wf mem (orders_by_id self) s ladder →
            side (mem !!! r) ≠ s → ∀ p l, ladder !! p = Some l → r ∉ l).
  { intros s ladder Hl Hs p l Hpl Hin. destruct (Hl _ _ Hpl) as (_ & _ & Hel).
    by destruct (Hel r Hin) as (_ & ? & _). }
  destruct (String.eqb (side (mem !!! r)) "bid") eqn:Hbid.
  { apply String.eqb_eq in Hbid.
    assert (side (mem !!! r) ≠ "ask") by (rewrite Hbid; done).
    destruct (Hbc _ _ Hr Hbid) as (l & Hp & Hin).
    destruct (remove_from_ladder_spec _ _ _ _ _ _ Hb Hp Hin)
      as (l1 & l2 & -> & ->).
    destruct (ladder_wf_remove _ _ _ _ _ _ _ _ Hb Hp) as [Hb' Hnin].
    split; [|done]. split; simpl; eauto using ladder_wf_delete_id,
      ladder_complete_delete_id, ladder_complete_remove.
    by apply heap_wf_without. }
  destruct (String.eqb (side (mem !!! r)) "ask") eqn:Hask.
  { apply String.eqb_eq in Hask.
    assert (side (mem !!! r) ≠ "bid") by (rewrite Hask; done).
    destruct (Hac _ _ Hr Hask) as (l & Hp & Hin).
    destruct (remove_from_ladder_spec _ _ _ _ _ _ Ha Hp Hin)
      as (l1 & l2 & -> & ->).
    destruct (ladder_wf_remove _ _ _ _ _ _ _ _ Ha Hp) as [Ha' Hnin].
    split; [|done]. split; simpl; eauto using ladder_wf_delete_id,
      ladder_complete_delete_id, ladder_complete_remove.
    by apply heap_wf_without. }
  apply String.eqb_neq in Hbid, Hask.
  split; [|done]. split; simpl; eauto using ladder_wf_delete_id,
    ladder_complete_delete_id.
Qed.

(** *** The drain loop *)

(** Each round of the loop either returns or goes on with the popped
    heap. *)
Lemma best_bid_loop_step ladder heap :
  best_bid_loop ladder heap
  = match heap with
    | [] => (None, heap)
    | negated_price :: _ =>
        match ladder !! (- negated_price) with
        | Some (first :: _) => (Some first, heap)
        | _ => best_bid_loop ladder (heappop heap)
        end
    end.
Proof. by destruct heap. Qed.

Lemma best_ask_loop_step ladder heap :
  best_ask_loop ladder heap
  = match heap with
    | [] => (None, heap)
    | best_price :: _ =>
        match ladder !! best_price with
        | Some (first :: _) => (Some first, heap)
        | _ => best_ask_loop ladder (heappop heap)
        end
    end.
Proof. by destruct heap. Qed.

Lemma best_bid_loop_drain ladder heap :
  best_bid_loop ladder heap = drain Z.opp ladder heap.
Proof. induction heap as [|x heap IH]; simpl; [done|]. by rewrite IH. Qed.

Lemma best_ask_loop_drain ladder heap :
  best_ask_loop ladder heap = drain (λ p, p) ladder heap.
Proof. induction heap as [|x heap IH]; simpl; [done|]. by rewrite IH. Qed.

Lemma drain_spec f ladder heap :
  ∃ stale,
    heap = stale ++ (drain f ladder heap).2 ∧
    (∀ x, x ∈ stale → ¬ live_entry f ladder x) ∧
    match (drain f ladder heap).1 with
    | None => (drain f ladder heap).2 = []
    | Some r => ∃ x heap' rest,
        (drain f ladder heap).2 = x :: heap' ∧
        ladder !! f x = Some (r :: rest)
    end.
Proof.
  induction heap as [|x heap (stale & Hheap & Hstale & Hfound)]; simpl.
  { exists []. split_and!; [done| |done]. by intros x ?%elem_of_nil. }
  destruct (ladder !! f x) as [[|first rest]|] eqn:Hx; simpl.
  - exists (x :: stale). split_and!; [by rewrite /= -Hheap| |done].
    intros y [->|Hy]%elem_of_cons; [|by apply Hstale].
    intros (? & ? & ?). congruence.
  - exists []. split_and!; [done| |by eauto]. by intros y ?%elem_of_nil.
  - exists (x :: stale). split_and!; [by rewrite /= -Hheap| |done].
    intros y [->|Hy]%elem_of_cons; [|by apply Hstale].
    intros (? & ? & ?). congruence.
Qed.

Lemma heap_wf_drain f mem by_id s ladder heap :
  (∀ p, f (f p) = p) →
  ladder_wf mem by_id s ladder →
  heap_wf f ladder heap → heap_wf f ladder (drain f ladder heap).2.
Proof.
  intros Hf Hl [Hs Hin].
  destruct (drain_spec f ladder heap) as (stale & Hheap & Hstale & _).
  split.
  - rewrite Hheap in Hs. by apply StronglySorted_app_1_r in Hs.
  - intros p Hp. specialize (Hin p Hp). rewrite Hheap in Hin.
    apply elem_of_app in Hin as [Hbad|?]; [|done].
    destruct (Hstale _ Hbad). destruct Hp as [l Hp].
    destruct (Hl _ _ Hp) as (? & _). unfold live_entry. rewrite Hf Hp.
    destruct l; [done|eauto].
Qed.

Lemma wf_get_best_bid mem self : wf mem self → wf mem (get_best_bid self).2.
Proof.
  intros [Hid Hb Ha Hbc Hac Hbh Hah]. unfold get_best_bid.
  rewrite best_bid_loop_drain.
  pose proof (heap_wf_drain Z.opp _ _ _ _ _ Z.opp_involutive Hb Hbh).
  destruct (drain Z.opp (bids_by_price self) (bid_heap self)).
  by split.
Qed.

Lemma wf_get_best_ask mem self : wf mem self → wf mem (get_best_ask self).2.
Proof.
  intros [Hid Hb Ha Hbc Hac Hbh Hah]. unfold get_best_ask.
  rewrite best_ask_loop_drain.
  pose proof (heap_wf_drain (λ p, p) _ _ _ _ _ (λ p, eq_refl) Ha Hah).
  destruct (drain (λ p, p) (asks_by_price self) (ask_heap self)).
  by split.
Qed.

Lemma reachable_wf mem self : reachable mem self → wf mem self.
Proof.
  induction 1; eauto using wf_init, wf_extends, extends_new_dict,
    extends_amend, wf_add_order, wf_get_best_bid, wf_get_best_ask.
  by apply wf_delete_order.
Qed.
End invariant.

(** ** The two scenarios of the specification, run on the code *)

Example scenario_best :
  (get_best_bid_ask scenario_book).1 = (Some 1%nat, Some 2%nat).
Proof. vm_compute. reflexivity. Qed.

(** After the delete 101 is still in the bid heap; the next query pops
    it. *)
Example scenario_stale_entry :
  bid_heap scenario_after_delete = [-101; -100] ∧
  bid_heap (get_best_bid scenario_after_delete).2 = [-100].
Proof. by vm_compute. Qed.

Example scenario_best_after_delete :
  (get_best_bid_ask (delete_order scenario_mem scenario_book 2).2).1
  = (Some 0%nat, Some 2%nat).
Proof. vm_compute. reflexivity. Qed.

(** ** Best price *)

Section best_price.
Implicit Types (mem : Store) (by_id : gmap Z ref)
  (ladder : gmap Z (list ref)) (heap : list Z) (self : OptimizedOrderBook).

Lemma foldr_max_spec p ps :
  foldr Z.max p ps ∈ p :: ps ∧ ∀ q, q ∈ p :: ps → q ≤ foldr Z.max p ps.
Proof.
  induction ps as [|a ps [IHin IHmax]]; simpl.
  - split; [by left|]. intros q ->%list_elem_of_singleton. lia.
  - split.
    + destruct (Z.max_spec a (foldr Z.max p ps)) as [[_ ->]|[_ ->]].
      * apply elem_of_cons in IHin as [->|?]; [by left|by do 2 right].
      * right. by left.
    + intros q Hq.
      assert (q = a ∨ q ∈ p :: ps) as [->|Hq'].
      { revert Hq. rewrite !elem_of_cons. naive_solver. }
      * lia.
      * specialize (IHmax q Hq'). lia.
Qed.

Lemma foldr_min_spec p ps :
  foldr Z.min p ps ∈ p :: ps ∧ ∀ q, q ∈ p :: ps → foldr Z.min p ps ≤ q.
Proof.
  induction ps as [|a ps [IHin IHmin]]; simpl.
  - split; [by left|]. intros q ->%list_elem_of_singleton. lia.
  - split.
    + destruct (Z.min_spec a (foldr Z.min p ps)) as [[_ ->]|[_ ->]].
      * right. by left.
      * apply elem_of_cons in IHin as [->|?]; [by left|by do 2 right].
    + intros q Hq.
      assert (q = a ∨ q ∈ p :: ps) as [->|Hq'].
      { revert Hq. rewrite !elem_of_cons. naive_solver. }
      * lia.
      * specialize (IHmin q Hq'). lia.
Qed.

Lemma max_price_spec ladder :
  match max_price ladder with
  | None => ladder = ∅
  | Some m => is_Some (ladder !! m) ∧ ∀ q, is_Some (ladder !! q) → q ≤ m
  end.
Proof.
  unfold max_price.
  destruct (elements (dom ladder)) as [|p ps] eqn:Hel.
  - apply elements_empty_inv in Hel. apply leibniz_equiv in Hel.
    by apply dom_empty_inv_L.
  - destruct (foldr_max_spec p ps) as [Hin Hmax]. rewrite -Hel in Hin, Hmax.
    split.
    + by apply elem_of_dom, elem_of_elements.
    + intros q Hq. by apply Hmax, elem_of_elements, elem_of_dom.
Qed.

Lemma min_price_spec ladder :
  match min_price ladder with
  | None => ladder = ∅
  | Some m => is_Some (ladder !! m) ∧ ∀ q, is_Some (ladder !! q) → m ≤ q
  end.
Proof.
  unfold min_price.
  destruct (elements (dom ladder)) as [|p ps] eqn:Hel.
  - apply elements_empty_inv in Hel. apply leibniz_equiv in Hel.
    by apply dom_empty_inv_L.
  - destruct (foldr_min_spec p ps) as [Hin Hmin]. rewrite -Hel in Hin, Hmin.
    split.
    + by apply elem_of_dom, elem_of_elements.
    + intros q Hq. by apply Hmin, elem_of_elements, elem_of_dom.
Qed.

(** On a well-formed side the loop stops at the bucket whose heap entry is
    the least, and finds nothing only when the ladder is empty. *)
Lemma drain_best f mem by_id s ladder heap :
  (∀ p, f (f p) = p) →
  ladder_wf mem by_id s ladder →
  heap_wf f ladder heap →
  match (drain f ladder heap).1 with
  | None => ladder = ∅
  | Some r => ∃ p rest, ladder !! p = Some (r :: rest) ∧
                        ∀ q, is_Some (ladder !! q) → f p ≤ f q
  end.
Proof.
  intros Hf Hl [Hs Hin].
  destruct (drain_spec f ladder heap) as (stale & Hheap & Hstale & Hfound).
  assert (Hkey : ∀ q, is_Some (ladder !! q) → f q ∈ (drain f ladder heap).2).
  { intros q Hq. specialize (Hin q Hq). rewrite Hheap in Hin.
    apply elem_of_app in Hin as [Hbad|?]; [|done].
    destruct (Hstale _ Hbad). destruct Hq as [l Hq].
    destruct (Hl _ _ Hq) as (? & _). unfold live_entry. rewrite Hf Hq.
    destruct l; [done|eauto]. }
  destruct (drain f ladder heap).1 as [r|].
  - destruct Hfound as (x & heap' & rest & Hheap' & Hx).
    exists (f x), rest. split; [done|]. intros q Hq. rewrite Hf.
    specialize (Hkey q Hq). rewrite Hheap' in Hkey.
    apply elem_of_cons in Hkey as [->|Hkey]; [lia|].
    rewrite Hheap Hheap' in Hs. apply StronglySorted_app_1_r in Hs.
    apply StronglySorted_inv in Hs as [_ Hall].
    by eapply Forall_forall in Hall.
  - apply map_eq. intros q. rewrite lookup_empty.
    destruct (ladder !! q) eqn:Hq; [|done].
    assert (f q ∈ (drain f ladder heap).2) as Hbad by (apply Hkey; eauto).
    rewrite Hfound in Hbad. by apply elem_of_nil in Hbad.
Qed.

Lemma drain_stale f mem by_id s ladder heap :
  ladder_wf mem by_id s ladder →
  ∃ stale, heap = stale ++ (drain f ladder heap).2 ∧
           ∀ x, x ∈ stale → ladder !! f x = None.
Proof.
  intros Hl.
  destruct (drain_spec f ladder heap) as (stale & Hheap & Hstale & _).
  exists stale. split; [done|]. intros x Hx.
  destruct (ladder !! f x) as [l|] eqn:Hfx; [|done].
  destruct (Hstale x Hx). destruct (Hl _ _ Hfx) as (? & _).
  unfold live_entry. rewrite Hfx. destruct l; [done|eauto].
Qed.

Lemma live_on_bid mem self r :
  wf mem self →
  live_on mem self "bid" r ↔
  ∃ l, bids_by_price self !! price (mem !!! r) = Some l ∧ r ∈ l.
Proof.
  intros [Hid Hb Ha Hbc Hac Hbh Hah]. split.
  - intros (id & Hr & Hs). by apply (Hbc id).
  - intros (l & Hl & Hin). destruct (Hb _ _ Hl) as (_ & _ & Hel).
    destruct (Hel r Hin) as (_ & ? & ?). by eexists.
Qed.

Lemma live_on_ask mem self r :
  wf mem self →
  live_on mem self "ask" r ↔
  ∃ l, asks_by_price self !! price (mem !!! r) = Some l ∧ r ∈ l.
Proof.
  intros [Hid Hb Ha Hbc Hac Hbh Hah]. split.
  - intros (id & Hr & Hs). by apply (Hac id).
  - intros (l & Hl & Hin). destruct (Ha _ _ Hl) as (_ & _ & Hel).
    destruct (Hel r Hin) as (_ & ? & ?). by eexists.
Qed.

Lemma wf_best_bid_correct mem self : wf mem self → best_bid_correct mem self.
Proof.
  intros Hwf. pose proof Hwf as [Hid Hb Ha Hbc Hac Hbh Hah].
  unfold best_bid_correct, get_best_bid. rewrite best_bid_loop_drain.
  pose proof (drain_best Z.opp _ _ _ _ _ Z.opp_involutive Hb Hbh) as Hbest.
  pose proof (drain_stale Z.opp _ _ _ _ (bid_heap self) Hb) as Hstale.
  destruct (drain Z.opp (bids_by_price self) (bid_heap self))
    as [found heap'] eqn:Hdrain.
  simpl in *. split_and!; try done.
  - unfold enumerate_best_bid.
    pose proof (max_price_spec (bids_by_price self)) as Hmax.
    destruct found as [r|].
    + destruct Hbest as (p & rest & Hp & Hle).
      destruct (max_price (bids_by_price self)) as [m|]; simpl.
      * destruct Hmax as [Hm Hmax].
        assert (m = p) as ->.
        { specialize (Hle m Hm). specialize (Hmax p (mk_is_Some _ _ Hp)).
          lia. }
        by rewrite Hp.
      * rewrite Hmax in Hp. done.
    + rewrite Hbest. done.
  - destruct found as [r|].
    + destruct Hbest as (p & rest & Hp & _). split; [done|]. intros Hnone.
      destruct (Hb _ _ Hp) as (_ & _ & Hel).
      destruct (Hel r) as (_ & ? & ?); [by left|].
      destruct (Hnone r). by eexists.
    + split; [|done]. intros _ r (l & Hl & _)%live_on_bid; [|done].
      rewrite Hbest in Hl. done.
  - intros r [= ->]. destruct Hbest as (p & rest & Hp & Hle).
    destruct (Hb _ _ Hp) as (_ & _ & Hel).
    destruct (Hel r) as (Hpr & ? & ?); [by left|]. subst p. split_and!.
    + by eexists.
    + intros r' (l & Hl & _)%live_on_bid; [|done].
      specialize (Hle _ (mk_is_Some _ _ Hl)). lia.
    + by eexists.
Qed.

Lemma wf_best_ask_correct mem self : wf mem self → best_ask_correct mem self.
Proof.
  intros Hwf. pose proof Hwf as [Hid Hb Ha Hbc Hac Hbh Hah].
  unfold best_ask_correct, get_best_ask. rewrite best_ask_loop_drain.
  pose proof (drain_best (λ p, p) _ _ _ _ _ (λ p, eq_refl) Ha Hah) as Hbest.
  pose proof (drain_stale (λ p, p) _ _ _ _ (ask_heap self) Ha) as Hstale.
  destruct (drain (λ p, p) (asks_by_price self) (ask_heap self))
    as [found heap'] eqn:Hdrain.
  simpl in *. split_and!; try done.
  - unfold enumerate_best_ask.
    pose proof (min_price_spec (asks_by_price self)) as Hmin.
    destruct found as [r|].
    + destruct Hbest as (p & rest & Hp & Hle).
      destruct (min_price (asks_by_price self)) as [m|]; simpl.
      * destruct Hmin as [Hm Hmin].
        assert (m = p) as ->.
        { specialize (Hle m Hm). specialize (Hmin p (mk_is_Some _ _ Hp)).
          lia. }
        by rewrite Hp.
      * rewrite Hmin in Hp. done.
    + rewrite Hbest. done.
  - destruct found as [r|].
    + destruct Hbest as (p & rest & Hp & _). split; [done|]. intros Hnone.
      destruct (Ha _ _ Hp) as (_ & _ & Hel).
      destruct (Hel r) as (_ & ? & ?); [by left|].
      destruct (Hnone r). by eexists.
    + split; [|done]. intros _ r (l & Hl & _)%live_on_ask; [|done].
      rewrite Hbest in Hl. done.
  - intros r [= ->]. destruct Hbest as (p & rest & Hp & Hle).
    destruct (Ha _ _ Hp) as (_ & _ & Hel).
    destruct (Hel r) as (Hpr & ? & ?); [by left|]. subst p. split_and!.
    + by eexists.
    + intros r' (l & Hl & _)%live_on_ask; [|done].
      by specialize (Hle _ (mk_is_Some _ _ Hl)).
    + by eexists.
Qed.

Lemma drain_idempotent f ladder heap :
  drain f ladder (drain f ladder heap).2 = drain f ladder heap.
Proof.
  induction heap as [|x heap IH]; simpl; [done|].
  destruct (ladder !! f x) as [[|first rest]|] eqn:Hx; simpl; [done| |done].
  by rewrite Hx.
Qed.
End best_price.

(** ** What the operations do to the buckets *)

Section effects.
Implicit Types (mem : Store) (by_id : gmap Z ref)
  (ladder : gmap Z (list ref)) (heap : list Z) (self : OptimizedOrderBook).

Lemma get_orders_at_price_bucket self p sf :
  get_orders_at_price self p sf
  = (if side_is sf "bid" then bucket (bids_by_price self) p else [])
    ++ (if side_is sf "ask" then bucket (asks_by_price self) p else []).
Proof.
  unfold get_orders_at_price, bucket.
  destruct (side_is sf "bid"), (side_is sf "ask");
    destruct (bids_by_price self !! p), (asks_by_price self !! p);
    simpl; by rewrite ?app_nil_r.
Qed.

Lemma bucket_insert ladder p l q :
  bucket (<[p := l]> ladder) q = if decide (p = q) then l else bucket ladder q.
Proof.
  unfold bucket. case_decide as Hp.
  - subst. by rewrite lookup_insert_eq.
  - by rewrite lookup_insert_ne.
Qed.

Lemma bucket_ladder_without ladder p l q :
  bucket (ladder_without ladder p l) q
  = if decide (p = q) then l else bucket ladder q.
Proof.
  unfold bucket. rewrite lookup_ladder_without.
  case_decide; [by destruct l|done].
Qed.

Lemma filter_ne_id (r : ref) (l : list ref) :
  r ∉ l → filter (λ x, x ≠ r) l = l.
Proof.
  induction l as [|y l IH]; [done|]. intros [? ?]%not_elem_of_cons.
  rewrite filter_cons_True; [congruence|]. by rewrite IH.
Qed.

Lemma filter_ne_middle (r : ref) (l1 l2 : list ref) :
  NoDup (l1 ++ r :: l2) → filter (λ x, x ≠ r) (l1 ++ r :: l2) = l1 ++ l2.
Proof.
  intros (? & Hd & [? ?]%NoDup_cons)%NoDup_app.
  rewrite filter_app filter_cons_False; [by intros []|].
  rewrite !filter_ne_id //. intros Hr. apply (Hd r Hr). by left.
Qed.

(** A successful [add_order] puts the order in the index and at the tail of
    its bucket, and moves nothing else. *)
Lemma add_order_ok mem self (r : ref) :
  orders_by_id self !! order_id (mem !!! r) = None →
  side (mem !!! r) = "bid" ∨ side (mem !!! r) = "ask" →
  (add_order mem self r).1 = Return () ∧
  orders_by_id (add_order mem self r).2
  = <[order_id (mem !!! r) := r]> (orders_by_id self) ∧
  (∀ q, bucket (bids_by_price (add_order mem self r).2) q
        = bucket (bids_by_price self) q
          ++ (if bool_decide (side (mem !!! r) = "bid" ∧ price (mem !!! r) = q)
              then [r] else [])) ∧
  (∀ q, bucket (asks_by_price (add_order mem self r).2) q
        = bucket (asks_by_price self) q
          ++ (if bool_decide (side (mem !!! r) = "ask" ∧ price (mem !!! r) = q)
              then [r] else [])).
Proof.
  intros Hfresh Hside. unfold add_order. rewrite Hfresh.
  destruct Hside as [Hs|Hs]; rewrite Hs; simpl.
  - destruct (bids_by_price self !! price (mem !!! r)) as [l|] eqn:Hp; simpl;
      (split_and!; [done..| |]); intros q; rewrite ?bucket_insert;
      rewrite ?app_nil_r //; case_decide as Hq.
    + rewrite bool_decide_eq_true_2 //. subst q. by rewrite /bucket Hp.
    + rewrite bool_decide_eq_false_2; [naive_solver|]. by rewrite app_nil_r.
    + rewrite bool_decide_eq_true_2 //. subst q. by rewrite /bucket Hp.
    + rewrite bool_decide_eq_false_2; [naive_solver|]. by rewrite app_nil_r.
  - destruct (asks_by_price self !! price (mem !!! r)) as [l|] eqn:Hp; simpl;
      (split_and!; [done..| |]); intros q; rewrite ?bucket_insert;
      rewrite ?app_nil_r //; case_decide as Hq.
    + rewrite bool_decide_eq_true_2 //. subst q. by rewrite /bucket Hp.
    + rewrite bool_decide_eq_false_2; [naive_solver|]. by rewrite app_nil_r.
    + rewrite bool_decide_eq_true_2 //. subst q. by rewrite /bucket Hp.
    + rewrite bool_decide_eq_false_2; [naive_solver|]. by rewrite app_nil_r.
Qed.

(** On a well-formed book [delete_order] of an indexed id returns [True],
    drops the id and takes the order out of every bucket, keeping the order
    of the rest. *)
Lemma delete_order_ok mem self id (r : ref) :
  wf mem self →
  orders_by_id self !! id = Some r →
  (delete_order mem self id).1 = Return true ∧
  orders_by_id (delete_order mem self id).2 = delete id (orders_by_id self) ∧
  (∀ q, bucket (bids_by_price (delete_order mem self id).2) q
        = filter (λ x, x ≠ r) (bucket (bids_by_price self) q)) ∧
  (∀ q, bucket (asks_by_price (delete_order mem self id).2) q
        = filter (λ x, x ≠ r) (bucket (asks_by_price self) q)).
Proof.
  intros Hwf Hr. pose proof Hwf as [Hid Hb Ha Hbc Hac Hbh Hah].
  assert (Hout : ∀ s ladder p, ladder_wf mem (orders_by_id self) s ladder →
            (side (mem !!! r) ≠ s ∨ price (mem !!! r) ≠ p) →
            filter (λ x, x ≠ r) (bucket ladder p) = bucket ladder p).
  { intros s ladder p Hl Hne. apply filter_ne_id. unfold bucket.
    destruct (ladder !! p) as [l|] eqn:Hp; simpl; [|apply not_elem_of_nil].
    intros Hin. destruct (Hl _ _ Hp) as (_ & _ & Hel).
    destruct (Hel r Hin) as (? & ? & _). naive_solver. }
  unfold delete_order. rewrite Hr.
  destruct (String.eqb (side (mem !!! r)) "bid") eqn:Hbid.
  { apply String.eqb_eq in Hbid.
    assert (side (mem !!! r) ≠ "ask") by (rewrite Hbid; done).
    destruct (Hbc _ _ Hr Hbid) as (l & Hp & Hin).
    destruct (remove_from_ladder_spec _ _ _ _ _ _ Hb Hp Hin)
      as (l1 & l2 & -> & ->).
    simpl. split_and!; [done..| |].
    - intros q. rewrite bucket_ladder_without. case_decide as Hq.
      + subst q. rewrite /bucket Hp /=. rewrite filter_ne_middle //.
        by destruct (Hb _ _ Hp) as (_ & ? & _).
      + rewrite (Hout "bid") //. by right.
    - intros q. rewrite (Hout "ask") //. by left. }
  destruct (String.eqb (side (mem !!! r)) "ask") eqn:Hask.
  { apply String.eqb_eq in Hask.
    assert (side (mem !!! r) ≠ "bid") by (rewrite Hask; done).
    destruct (Hac _ _ Hr Hask) as (l & Hp & Hin).
    destruct (remove_from_ladder_spec _ _ _ _ _ _ Ha Hp Hin)
      as (l1 & l2 & -> & ->).
    simpl. split_and!; [done..| |].
    - intros q. rewrite (Hout "bid") //. by left.
    - intros q. rewrite bucket_ladder_without. case_decide as Hq.
      + subst q. rewrite /bucket Hp /=. rewrite filter_ne_middle //.
        by destruct (Ha _ _ Hp) as (_ & ? & _).
      + rewrite (Hout "ask") //. by right. }
  apply String.eqb_neq in Hbid, Hask. simpl. split_and!; [done..| |].
  - intros q. rewrite (Hout "bid") //. by left.
  - intros q. rewrite (Hout "ask") //. by left.
Qed.

(** A batch of fresh orders of one price and side lands at the tail of that
    bucket, in order. *)
Lemma add_orders_ok mem self (orders : list ref) p s :
  wf mem self →
  s = "bid" ∨ s = "ask" →
  Forall (λ o : ref, (o < length mem)%nat ∧ price (mem !!! o) = p ∧
                     side (mem !!! o) = s ∧
                     orders_by_id self !! order_id (mem !!! o) = None) orders →
  NoDup ((λ o : ref, order_id (mem !!! o)) <$> orders) →
  (add_orders mem self orders).1 = Return () ∧
  wf mem (add_orders mem self orders).2 ∧
  (∀ o, o ∈ orders →
     orders_by_id (add_orders mem self orders).2 !! order_id (mem !!! o)
     = Some o) ∧
  (∀ id, id ∉ (λ o : ref, order_id (mem !!! o)) <$> orders →
     orders_by_id (add_orders mem self orders).2 !! id
     = orders_by_id self !! id) ∧
  (∀ q, bucket (bids_by_price (add_orders mem self orders).2) q
        = bucket (bids_by_price self) q
          ++ (if bool_decide (s = "bid" ∧ p = q) then orders else [])) ∧
  (∀ q, bucket (asks_by_price (add_orders mem self orders).2) q
        = bucket (asks_by_price self) q
          ++ (if bool_decide (s = "ask" ∧ p = q) then orders else [])).
Proof.
  intros Hwf Hs Hall Hnd. revert self Hwf Hall.
  induction orders as [|o orders IH]; intros self Hwf Hall; simpl.
  { split_and!; [done..| | | |].
    - by intros o ?%elem_of_nil.
    - done.
    - intros q. by destruct (bool_decide _); rewrite app_nil_r.
    - intros q. by destruct (bool_decide _); rewrite app_nil_r. }
  apply Forall_cons in Hall as [(Ho & Hp & Hso & Hfresh) Hall].
  apply NoDup_cons in Hnd as [Hnin Hnd].
  destruct (add_order_ok mem self o) as (Hret & Hidx & Hbids & Hasks);
    [done|by rewrite Hso|].
  pose proof (wf_add_order mem self o Ho Hwf) as Hwf'.
  destruct (add_order mem self o) as [res self'] eqn:Hadd. simpl in *.
  subst res.
  destruct (IH Hnd self' Hwf')
    as (Hret' & Hwf'' & Hin' & Hout' & Hbids' & Hasks').
  { apply Forall_forall. intros o' Ho'.
    destruct (proj1 (Forall_forall _ _) Hall o' Ho') as (? & ? & ? & ?).
    split_and!; [done..|].
    rewrite Hidx lookup_insert_ne //. intros Heq. apply Hnin.
    rewrite Heq. apply list_elem_of_fmap. by exists o'. }
  split_and!; [done..| | | |].
  - intros o' [->|Ho']%elem_of_cons; [|by apply Hin'].
    rewrite Hout' // Hidx. apply lookup_insert_eq.
  - intros id [Hne Hid]%not_elem_of_cons.
    rewrite Hout' // Hidx lookup_insert_ne //.
  - intros q. rewrite Hbids' Hbids Hso Hp -app_assoc. f_equal.
    destruct Hs as [-> | ->]; repeat case_bool_decide; naive_solver.
  - intros q. rewrite Hasks' Hasks Hso Hp -app_assoc. f_equal.
    destruct Hs as [-> | ->]; repeat case_bool_decide; naive_solver.
Qed.
End effects.

(** * Properties of the specification *)

Lemma scenario_reachable : reachable scenario_mem scenario_book.
Proof.
  apply (reach_add_order scenario_mem _ 2%nat); [|simpl; lia].
  apply (reach_add_order scenario_mem _ 1%nat); [|simpl; lia].
  apply (reach_add_order scenario_mem _ 0%nat); [|simpl; lia].
  apply (reach_new_dict [_; _] init).
  apply (reach_new_dict [_] init).
  apply (reach_new_dict [] init).
  apply reach_init.
Defined.

Lemma scenario_after_delete_reachable :
  reachable scenario_mem scenario_after_delete.
Proof. apply reach_delete_order, scenario_reachable. Defined.

(** C1. In every reachable state [get_best_bid] returns the oldest order of
    the bucket at the highest live bid price, and [get_best_ask] the oldest
    at the lowest live ask price; each returns [None] exactly when no order
    is live on its side; the result is the one direct enumeration of the
    ladder gives, and the loop pops only prices that have no bucket. *)
Theorem best_price_correct mem self :
  reachable mem self →
  best_bid_correct mem self ∧ best_ask_correct mem self.
Proof.
  intros Hwf%reachable_wf.
  split; [by apply wf_best_bid_correct|by apply wf_best_ask_correct].
Qed.

Lemma best_price_correct_witness :
  reachable scenario_mem scenario_after_delete ∧
  best_bid_correct scenario_mem scenario_after_delete ∧
  best_ask_correct scenario_mem scenario_after_delete.
Proof.
  split; [apply scenario_after_delete_reachable|].
  apply (best_price_correct scenario_mem scenario_after_delete).
  apply scenario_after_delete_reachable.
Defined.

(** Whatever the book, an order with a fresh identifier and an unknown side
    is rejected after the index has taken it. *)
Lemma add_order_invalid_side mem self (r : ref) :
  orders_by_id self !! order_id (mem !!! r) = None →
  side (mem !!! r) ≠ "bid" → side (mem !!! r) ≠ "ask" →
  add_order mem self r
  = (Raise (InvalidSideError (side (mem !!! r))),
     mkBook (<[order_id (mem !!! r) := r]> (orders_by_id self))
            (bids_by_price self) (asks_by_price self)
            (bid_heap self) (ask_heap self)).
Proof.
  intros Hfresh Hbid%String.eqb_neq Hask%String.eqb_neq.
  unfold add_order. by rewrite Hfresh Hbid Hask.
Qed.

(** C2, on the code: with an unknown side [add_order] raises, but only after
    it has stored the order in [orders_by_id]; a later [lookup_order] finds
    the rejected order. *)
Theorem add_order_invalid_side_stores :
  add_order bad_side_mem init 0%nat
  = (Raise (InvalidSideError "buy"), mkBook {[1 := 0%nat]} ∅ ∅ [] []) ∧
  (add_order bad_side_mem init 0%nat).2 ≠ init ∧
  lookup_order (add_order bad_side_mem init 0%nat).2 1 = Some 0%nat ∧
  lookup_order init 1 = None.
Proof.
  split_and!; [done| |done|done].
  intros Heq. apply (f_equal (λ b, orders_by_id b !! 1)) in Heq.
  by vm_compute in Heq.
Qed.

(** A well-formed ladder has a key exactly for the prices that have an
    order. *)
Lemma lookup_price_level mem by_id s ladder q :
  ladder_wf mem by_id s ladder →
  ladder !! q = price_level (bucket ladder q).
Proof.
  intros Hl. unfold bucket. destruct (ladder !! q) as [l|] eqn:Hq; simpl.
  - destruct (Hl _ _ Hq) as (? & _). by destruct l.
  - done.
Qed.

Lemma wf_buckets_ok mem self : wf mem self → buckets_ok mem self.
Proof.
  intros [Hid Hb Ha _ _ _ _] ladder p l Hladder Hp.
  assert (∃ s, ladder_wf mem (orders_by_id self) s ladder) as [s Hl].
  { destruct Hladder as [-> | ->]; eauto. }
  destruct (Hl _ _ Hp) as (? & _ & Hel). split; [done|].
  apply Forall_forall. intros r Hr. by destruct (Hel r Hr) as (? & _ & ?).
Qed.

(** C4. In every reachable state every price key of either ladder maps to a
    non-empty list of orders, each of exactly that price and each the order
    the index holds under its identifier, and every public operation leaves
    it so.  [add_order] creates a bucket only together with its first
    order: afterwards a price has a key exactly when an order rests there,
    the new order at the tail of its bucket, and an [add_order] that raises
    leaves the ladders alone.  [delete_order] takes the order out of its
    bucket and removes the price key altogether when that was the last order
    at the price. *)
Theorem ladder_buckets_nonempty mem self :
  reachable mem self →
  buckets_ok mem self ∧
  (∀ o, buckets_ok (new_dict mem o).2 self) ∧
  (∀ r : ref, (r < length mem)%nat → buckets_ok mem (add_order mem self r).2) ∧
  (∀ id q, buckets_ok (amend_order mem self id q).2 self) ∧
  (∀ id, buckets_ok mem (delete_order mem self id).2) ∧
  buckets_ok mem (get_best_bid self).2 ∧
  buckets_ok mem (get_best_ask self).2 ∧
  buckets_ok mem (get_best_bid_ask self).2 ∧
  (∀ r : ref,
     orders_by_id self !! order_id (mem !!! r) = None →
     side (mem !!! r) = "bid" ∨ side (mem !!! r) = "ask" →
     (r < length mem)%nat →
     ∀ q,
       bids_by_price (add_order mem self r).2 !! q
       = price_level
           (bucket (bids_by_price self) q
            ++ (if bool_decide (side (mem !!! r) = "bid" ∧
                                price (mem !!! r) = q)
                then [r] else [])) ∧
       asks_by_price (add_order mem self r).2 !! q
       = price_level
           (bucket (asks_by_price self) q
            ++ (if bool_decide (side (mem !!! r) = "ask" ∧
                                price (mem !!! r) = q)
                then [r] else []))) ∧
  (∀ r : ref,
     (add_order mem self r).1 ≠ Return () →
     bids_by_price (add_order mem self r).2 = bids_by_price self ∧
     asks_by_price (add_order mem self r).2 = asks_by_price self) ∧
  (∀ id (r : ref),
     orders_by_id self !! id = Some r →
     ∀ q,
       bids_by_price (delete_order mem self id).2 !! q
       = price_level (filter (λ x, x ≠ r) (bucket (bids_by_price self) q)) ∧
       asks_by_price (delete_order mem self id).2 !! q
       = price_level (filter (λ x, x ≠ r) (bucket (asks_by_price self) q))) ∧
  (∀ id, orders_by_id self !! id = None →
     delete_order mem self id = (Return false, self)).
Proof.
  intros Hreach. pose proof (reachable_wf _ _ Hreach) as Hwf.
  split_and!.
  - by apply wf_buckets_ok.
  - intros o. by apply wf_buckets_ok, reachable_wf, reach_new_dict.
  - intros r Hr. by apply wf_buckets_ok, wf_add_order.
  - intros id q. by apply wf_buckets_ok, reachable_wf, reach_amend_order.
  - intros id. by apply wf_buckets_ok, wf_delete_order.
  - by apply wf_buckets_ok, wf_get_best_bid.
  - by apply wf_buckets_ok, wf_get_best_ask.
  - apply wf_buckets_ok. unfold get_best_bid_ask.
    pose proof (wf_get_best_bid mem self Hwf) as Hwf1.
    destruct (get_best_bid self) as [bid self1]. simpl in Hwf1.
    pose proof (wf_get_best_ask mem self1 Hwf1) as Hwf2.
    by destruct (get_best_ask self1) as [ask self2].
  - intros r Hfresh Hside Hr q.
    destruct (add_order_ok mem self r Hfresh Hside) as (_ & _ & Hb & Ha).
    destruct (wf_add_order mem self r Hr Hwf) as [_ Hb' Ha' _ _ _ _].
    rewrite -Hb -Ha. split; by eapply lookup_price_level.
  - intros r. unfold add_order.
    destruct (orders_by_id self !! order_id (mem !!! r)); [done|].
    destruct (String.eqb (side (mem !!! r)) "bid").
    { by destruct (bids_by_price self !! _). }
    destruct (String.eqb (side (mem !!! r)) "ask"); [|done].
    by destruct (asks_by_price self !! _).
  - intros id r Hr q.
    destruct (delete_order_ok mem self id r Hwf Hr) as (_ & _ & Hb & Ha).
    destruct (wf_delete_order mem self id Hwf) as [[_ Hb' Ha' _ _ _ _] _].
    rewrite -Hb -Ha. split; by eapply lookup_price_level.
  - intros id Hid. unfold delete_order. by rewrite Hid.
Qed.

Lemma ladder_buckets_nonempty_witness :
  reachable scenario_mem scenario_book ∧
  buckets_ok scenario_mem scenario_book ∧
  (∀ o, buckets_ok (new_dict scenario_mem o).2 scenario_book) ∧
  (∀ r : ref, (r < length scenario_mem)%nat →
     buckets_ok scenario_mem (add_order scenario_mem scenario_book r).2) ∧
  (∀ id q,
     buckets_ok (amend_order scenario_mem scenario_book id q).2
                scenario_book) ∧
  (∀ id, buckets_ok scenario_mem
           (delete_order scenario_mem scenario_book id).2) ∧
  buckets_ok scenario_mem (get_best_bid scenario_book).2 ∧
  buckets_ok scenario_mem (get_best_ask scenario_book).2 ∧
  buckets_ok scenario_mem (get_best_bid_ask scenario_book).2 ∧
  (∀ r : ref,
     orders_by_id scenario_book !! order_id (scenario_mem !!! r) = None →
     side (scenario_mem !!! r) = "bid" ∨ side (scenario_mem !!! r) = "ask" →
     (r < length scenario_mem)%nat →
     ∀ q,
       bids_by_price (add_order scenario_mem scenario_book r).2 !! q
       = price_level
           (bucket (bids_by_price scenario_book) q
            ++ (if bool_decide (side (scenario_mem !!! r) = "bid" ∧
                                price (scenario_mem !!! r) = q)
                then [r] else [])) ∧
       asks_by_price (add_order scenario_mem scenario_book r).2 !! q
       = price_level
           (bucket (asks_by_price scenario_book) q
            ++ (if bool_decide (side (scenario_mem !!! r) = "ask" ∧
                                price (scenario_mem !!! r) = q)
                then [r] else []))) ∧
  (∀ r : ref,
     (add_order scenario_mem scenario_book r).1 ≠ Return () →
     bids_by_price (add_order scenario_mem scenario_book r).2
     = bids_by_price scenario_book ∧
     asks_by_price (add_order scenario_mem scenario_book r).2
     = asks_by_price scenario_book) ∧
  (∀ id (r : ref),
     orders_by_id scenario_book !! id = Some r →
     ∀ q,
       bids_by_price (delete_order scenario_mem scenario_book id).2 !! q
       = price_level
           (filter (λ x, x ≠ r) (bucket (bids_by_price scenario_book) q)) ∧
       asks_by_price (delete_order scenario_mem scenario_book id).2 !! q
       = price_level
           (filter (λ x, x ≠ r) (bucket (asks_by_price scenario_book) q))) ∧
  (∀ id, orders_by_id scenario_book !! id = None →
     delete_order scenario_mem scenario_book id = (Return false, scenario_book)).
Proof.
  split; [apply scenario_reachable|].
  apply (ladder_buckets_nonempty scenario_mem scenario_book).
  apply scenario_reachable.
Defined.

(** The scenario's book has one bid at 101: deleting it removes the key,
    and adding a bid at 99 creates a key that holds just that order. *)
Example scenario_price_keys :
  bids_by_price scenario_book !! 101 = Some [1%nat] ∧
  bids_by_price (delete_order scenario_mem scenario_book 2).2 !! 101 = None ∧
  bids_by_price scenario_book !! 99 = None ∧
  bids_by_price
    (add_order (scenario_mem ++ [mkOrder 3 99 8 "bid"]) scenario_book 3%nat).2
    !! 99 = Some [3%nat].
Proof. by vm_compute. Qed.

(** C6. When the identifier of the order is already in the index,
    [add_order] raises the duplicate error and returns the book it was
    given; no order object is written to, so the first order keeps its four
    attributes. *)
Theorem add_order_duplicate_unchanged mem self (r : ref) :
  is_Some (orders_by_id self !! order_id (mem !!! r)) →
  add_order mem self r
  = (Raise (DuplicateOrderError (order_id (mem !!! r))), self).
Proof. intros [r0 Hr0]. unfold add_order. by rewrite Hr0. Qed.

Lemma add_order_duplicate_unchanged_witness :
  is_Some (orders_by_id (add_order duplicate_mem init 0%nat).2
             !! order_id (duplicate_mem !!! 1%nat)) ∧
  add_order duplicate_mem (add_order duplicate_mem init 0%nat).2 1%nat
  = (Raise (DuplicateOrderError 5), (add_order duplicate_mem init 0%nat).2).
Proof.
  split; [by eexists|].
  apply (add_order_duplicate_unchanged duplicate_mem
           (add_order duplicate_mem init 0%nat).2 1%nat).
  by eexists.
Defined.

(** C7. A second [get_best_bid] (or [get_best_ask]) right after a first one
    returns the same order or [None] and leaves the book, heaps included,
    exactly as the first call left it. *)
Theorem best_twice self :
  (let '(found, self') := get_best_bid self in
   get_best_bid self' = (found, self')) ∧
  (let '(found, self') := get_best_ask self in
   get_best_ask self' = (found, self')).
Proof.
  unfold get_best_bid, get_best_ask.
  rewrite !best_bid_loop_drain !best_ask_loop_drain. split.
  - pose proof (drain_idempotent Z.opp (bids_by_price self) (bid_heap self))
      as Hidem.
    destruct (drain Z.opp (bids_by_price self) (bid_heap self)) as [found h].
    simpl in *. rewrite best_bid_loop_drain Hidem. done.
  - pose proof (drain_idempotent (λ p, p) (asks_by_price self) (ask_heap self))
      as Hidem.
    destruct (drain (λ p, p) (asks_by_price self) (ask_heap self))
      as [found h].
    simpl in *. rewrite best_ask_loop_drain Hidem. done.
Qed.

(** C9. [amend_order] checks nothing about the new quantity: for an indexed
    identifier it returns [True] and the order then has exactly the quantity
    given, negative or not. *)
Theorem amend_order_any_quantity mem self id new_quantity (r : ref) :
  orders_by_id self !! id = Some r →
  (r < length mem)%nat →
  (amend_order mem self id new_quantity).1 = true ∧
  quantity ((amend_order mem self id new_quantity).2 !!! r) = new_quantity.
Proof.
  intros Hr Hlen. unfold amend_order. rewrite Hr. simpl. split; [done|].
  by rewrite list_lookup_total_insert_eq.
Qed.

Lemma amend_order_any_quantity_witness :
  orders_by_id scenario_book !! 1 = Some 0%nat ∧
  (0 < length scenario_mem)%nat ∧
  (amend_order scenario_mem scenario_book 1 (-5)).1 = true ∧
  quantity ((amend_order scenario_mem scenario_book 1 (-5)).2 !!! 0%nat) = -5.
Proof.
  split; [reflexivity|]. split; [simpl; lia|].
  apply (amend_order_any_quantity scenario_mem scenario_book 1 (-5) 0%nat).
  - reflexivity.
  - simpl; lia.
Defined.

(** C5. Orders added one after the other at one price and side come back
    from [get_orders_at_price] in that order, after the orders that were
    already resting there; and once [delete_order] has removed one of them
    the others come back in their original relative order. *)
Theorem fifo_at_price mem self (orders : list ref) p s sf :
  reachable mem self →
  s = "bid" ∨ s = "ask" →
  side_is sf s = true →
  Forall (λ o : ref, (o < length mem)%nat ∧ price (mem !!! o) = p ∧
                     side (mem !!! o) = s ∧
                     orders_by_id self !! order_id (mem !!! o) = None) orders →
  NoDup ((λ o : ref, order_id (mem !!! o)) <$> orders) →
  ∃ pre post,
    get_orders_at_price self p sf = pre ++ post ∧
    (add_orders mem self orders).1 = Return () ∧
    get_orders_at_price (add_orders mem self orders).2 p sf
    = pre ++ orders ++ post ∧
    ∀ l1 o l2, orders = l1 ++ o :: l2 →
      (delete_order mem (add_orders mem self orders).2
         (order_id (mem !!! o))).1 = Return true ∧
      get_orders_at_price
        (delete_order mem (add_orders mem self orders).2
           (order_id (mem !!! o))).2 p sf
      = pre ++ (l1 ++ l2) ++ post.
Proof.
  intros Hwf%reachable_wf Hs Hsf Hall Hnd.
  destruct (add_orders_ok mem self orders p s Hwf Hs Hall Hnd)
    as (Hret & Hwf' & Hin & _ & Hbids & Hasks).
  set (self' := (add_orders mem self orders).2) in *.
  assert (Hdel : ∀ l1 o l2, orders = l1 ++ o :: l2 →
    (delete_order mem self' (order_id (mem !!! o))).1 = Return true ∧
    (∀ q, bucket (bids_by_price
                    (delete_order mem self' (order_id (mem !!! o))).2) q
          = filter (λ x, x ≠ o) (bucket (bids_by_price self') q)) ∧
    (∀ q, bucket (asks_by_price
                    (delete_order mem self' (order_id (mem !!! o))).2) q
          = filter (λ x, x ≠ o) (bucket (asks_by_price self') q)) ∧
    side (mem !!! o) = s).
  { intros l1 o l2 ->.
    assert (o ∈ l1 ++ o :: l2) as Ho by (apply elem_of_app; right; by left).
    destruct (delete_order_ok mem self' _ o Hwf' (Hin o Ho)) as (? & _ & ? & ?).
    split_and!; [done..|].
    by destruct (proj1 (Forall_forall _ _) Hall o Ho) as (_ & _ & ? & _). }
  assert (Hnodup : ∀ s' ladder q l, ladder_wf mem (orders_by_id self') s' ladder →
            bucket ladder q = l → NoDup l).
  { intros s' ladder q l Hl <-. unfold bucket.
    destruct (ladder !! q) as [l|] eqn:Hq; simpl; [|constructor].
    by destruct (Hl _ _ Hq) as (_ & ? & _). }
  assert (Hother : ∀ s' ladder q (o : ref),
            ladder_wf mem (orders_by_id self') s' ladder →
            side (mem !!! o) ≠ s' →
            filter (λ x, x ≠ o) (bucket ladder q) = bucket ladder q).
  { intros s' ladder q o Hl Hne. apply filter_ne_id. unfold bucket.
    destruct (ladder !! q) as [l|] eqn:Hq; simpl; [|apply not_elem_of_nil].
    intros Ho. destruct (Hl _ _ Hq) as (_ & _ & Hel).
    by destruct (Hel o Ho) as (_ & ? & _). }
  pose proof Hwf' as [_ Hb Ha _ _ _ _].
  destruct Hs as [-> | ->].
  - exists (bucket (bids_by_price self) p),
      (if side_is sf "ask" then bucket (asks_by_price self) p else []).
    rewrite !get_orders_at_price_bucket Hsf.
    assert (Hbp : bucket (bids_by_price self') p
                  = bucket (bids_by_price self) p ++ orders).
    { rewrite Hbids bool_decide_eq_true_2 //. }
    assert (Hap : bucket (asks_by_price self') p
                  = bucket (asks_by_price self) p).
    { rewrite Hasks bool_decide_eq_false_2; [by intros []|].
      by rewrite app_nil_r. }
    rewrite Hbp Hap. split_and!; [done|done|by rewrite -app_assoc|].
    intros l1 o l2 Horders.
    destruct (Hdel l1 o l2 Horders) as (? & Hb' & Ha' & Hso).
    split; [done|]. rewrite get_orders_at_price_bucket Hsf Hb' Ha'.
    rewrite (Hother "ask" (asks_by_price self')); [done|by rewrite Hso|].
    rewrite Hbp Hap. subst orders. rewrite app_assoc filter_ne_middle.
    { rewrite -app_assoc -Hbp.
      by apply (Hnodup "bid" (bids_by_price self') p). }
    by rewrite -!app_assoc.
  - exists ((if side_is sf "bid" then bucket (bids_by_price self) p else [])
            ++ bucket (asks_by_price self) p), [].
    rewrite !get_orders_at_price_bucket Hsf.
    assert (Hap : bucket (asks_by_price self') p
                  = bucket (asks_by_price self) p ++ orders).
    { rewrite Hasks bool_decide_eq_true_2 //. }
    assert (Hbp : bucket (bids_by_price self') p
                  = bucket (bids_by_price self) p).
    { rewrite Hbids bool_decide_eq_false_2; [by intros []|].
      by rewrite app_nil_r. }
    rewrite Hbp Hap !app_nil_r.
    split_and!; [done|done|by rewrite -app_assoc|].
    intros l1 o l2 Horders.
    destruct (Hdel l1 o l2 Horders) as (? & Hb' & Ha' & Hso).
    split; [done|]. rewrite get_orders_at_price_bucket Hsf Hb' Ha'.
    rewrite (Hother "bid" (bids_by_price self')); [done|by rewrite Hso|].
    rewrite Hbp Hap. subst orders. rewrite (app_assoc _ l1) filter_ne_middle.
    { rewrite -app_assoc -Hap.
      by apply (Hnodup "ask" (asks_by_price self') p). }
    by rewrite app_nil_r -!app_assoc.
Qed.

Lemma fifo_mem_reachable : reachable fifo_mem init.
Proof.
  apply (reach_new_dict [_; _] init).
  apply (reach_new_dict [_] init).
  apply (reach_new_dict [] init).
  apply reach_init.
Defined.

Lemma fifo_at_price_witness :
  reachable fifo_mem init ∧
  ("bid" = "bid" ∨ "bid" = "ask") ∧
  side_is (Some "bid") "bid" = true ∧
  Forall (λ o : ref, (o < length fifo_mem)%nat ∧ price (fifo_mem !!! o) = 100 ∧
                     side (fifo_mem !!! o) = "bid" ∧
                     orders_by_id init !! order_id (fifo_mem !!! o) = None)
         [0; 1; 2]%nat ∧
  NoDup ((λ o : ref, order_id (fifo_mem !!! o)) <$> [0; 1; 2]%nat) ∧
  ∃ pre post,
    get_orders_at_price init 100 (Some "bid") = pre ++ post ∧
    (add_orders fifo_mem init [0; 1; 2]%nat).1 = Return () ∧
    get_orders_at_price (add_orders fifo_mem init [0; 1; 2]%nat).2 100
      (Some "bid") = pre ++ [0; 1; 2]%nat ++ post ∧
    ∀ l1 o l2, [0; 1; 2]%nat = l1 ++ o :: l2 →
      (delete_order fifo_mem (add_orders fifo_mem init [0; 1; 2]%nat).2
         (order_id (fifo_mem !!! o))).1 = Return true ∧
      get_orders_at_price
        (delete_order fifo_mem (add_orders fifo_mem init [0; 1; 2]%nat).2
           (order_id (fifo_mem !!! o))).2 100 (Some "bid")
      = pre ++ (l1 ++ l2) ++ post.
Proof.
  assert (Hall : Forall (λ o : ref, (o < length fifo_mem)%nat ∧
                     price (fifo_mem !!! o) = 100 ∧
                     side (fifo_mem !!! o) = "bid" ∧
                     orders_by_id init !! order_id (fifo_mem !!! o) = None)
                   [0; 1; 2]%nat).
  { repeat constructor; simpl; lia. }
  assert (Hnd : NoDup ((λ o : ref, order_id (fifo_mem !!! o))
                         <$> [0; 1; 2]%nat)).
  { simpl. repeat (apply NoDup_cons_2; [set_solver|]). apply NoDup_nil_2. }
  split; [apply fifo_mem_reachable|].
  split; [by left|]. split; [reflexivity|]. split; [exact Hall|].
  split; [exact Hnd|].
  apply (fifo_at_price fifo_mem init [0; 1; 2]%nat 100 "bid" (Some "bid")).
  - apply fifo_mem_reachable.
  - by left.
  - reflexivity.
  - exact Hall.
  - exact Hnd.
Defined.

Example fifo_scenario :
  get_orders_at_price (add_orders fifo_mem init [0; 1; 2]%nat).2 100 None
  = [0; 1; 2]%nat ∧
  get_orders_at_price
    (delete_order fifo_mem (add_orders fifo_mem init [0; 1; 2]%nat).2 11).2
    100 (Some "bid") = [0; 2]%nat.
Proof. split; vm_compute; reflexivity. Qed.

(** ** Round trips *)

(** [add_order] then [lookup_order]: the very dict that was added. *)
Lemma add_then_lookup mem self (r : ref) :
  orders_by_id self !! order_id (mem !!! r) = None →
  side (mem !!! r) = "bid" ∨ side (mem !!! r) = "ask" →
  (add_order mem self r).1 = Return () ∧
  lookup_order (add_order mem self r).2 (order_id (mem !!! r)) = Some r.
Proof.
  intros Hfresh Hside.
  destruct (add_order_ok mem self r Hfresh Hside) as (? & Hidx & _).
  split; [done|]. unfold lookup_order. rewrite Hidx. apply lookup_insert_eq.
Qed.

(** [amend_order] on an indexed order of a known side: the one dict, seen
    through the index and through its bucket, has the new quantity and its
    other attributes; the book is not written to. *)
Lemma amend_then_lookup mem self id q (r : ref) :
  wf mem self →
  orders_by_id self !! id = Some r →
  side (mem !!! r) = "bid" ∨ side (mem !!! r) = "ask" →
  (amend_order mem self id q).1 = true ∧
  (amend_order mem self id q).2 !!! r = set_quantity (mem !!! r) q ∧
  lookup_order self id = Some r ∧
  r ∈ get_orders_at_price self (price (mem !!! r)) None.
Proof.
  intros [Hid Hb Ha Hbc Hac _ _] Hr Hside. unfold amend_order. rewrite Hr.
  destruct (Hid _ _ Hr) as [Hlen _]. simpl. split_and!; [done| |done|].
  - by rewrite list_lookup_total_insert_eq.
  - rewrite get_orders_at_price_bucket. simpl. apply elem_of_app.
    destruct Hside as [Hs|Hs].
    + left. destruct (Hbc _ _ Hr Hs) as (l & Hl & Hin). by rewrite /bucket Hl.
    + right. destruct (Hac _ _ Hr Hs) as (l & Hl & Hin). by rewrite /bucket Hl.
Qed.

(** C8, on the code: an identifier can be in the index without its order
    being in a ladder.  The order rejected for its side is such a one:
    [amend_order] finds it and [lookup_order] shows the new quantity, but
    [get_orders_at_price] at its price shows no order at all. *)
Theorem amend_order_of_rejected_order :
  let self := (add_order bad_side_mem init 0%nat).2 in
  amend_order bad_side_mem self 1 5 = (true, [mkOrder 1 100 5 "buy"]) ∧
  lookup_order self 1 = Some 0%nat ∧
  get_orders_at_price self 100 None = [] ∧
  get_orders_at_price self 100 (Some "buy") = [].
Proof. by split_and!. Qed.

(** * The two books side by side *)

Example scenario_calls_optimized :
  run optimized_call ([], init) scenario_calls
  = [Done; Done; Done;
     TwoOrders (Some (mkOrder 2 101 5 "bid")) (Some (mkOrder 4 102 15 "ask"));
     Bool true; AnOrder (Some (mkOrder 1 100 20 "bid"));
     Orders [mkOrder 1 100 20 "bid"];
     Bool true;
     TwoOrders (Some (mkOrder 1 100 20 "bid")) (Some (mkOrder 4 102 15 "ask"));
     AnOrder (Some (mkOrder 1 100 20 "bid")); Bool false;
     Done; Orders [mkOrder 1 100 20 "bid"; mkOrder 2 100 7 "bid"];
     Bool true; AnOrder (Some (mkOrder 2 100 7 "bid"));
     AnOrder (Some (mkOrder 4 102 15 "ask")); AnOrder None].
Proof. vm_compute. reflexivity. Qed.

Example scenario_calls_naive :
  run naive_call ([], Naive.init) scenario_calls
  = run optimized_call ([], init) scenario_calls.
Proof. vm_compute. reflexivity. Qed.

(** ** Stable sorting *)

Section sorting.
Variables (before : Z → Z → bool) (key : ref → Z).
Hypothesis before_refl : ∀ k, before k k = true.
Hypothesis before_total : ∀ j k, before j k = false → before k j = true.
Hypothesis before_trans :
  ∀ i j k, before i j = true → before j k = true → before i k = true.

Lemma sort_insert_elem x l z :
  z ∈ sort_insert before key x l ↔ z = x ∨ z ∈ l.
Proof.
  induction l as [|y l IH]; simpl.
  - rewrite list_elem_of_singleton. set_solver.
  - destruct (before (key x) (key y)); rewrite !elem_of_cons ?IH; naive_solver.
Qed.

Lemma sort_insert_sorted x l :
  StronglySorted (λ a b, before (key a) (key b) = true) l →
  StronglySorted (λ a b, before (key a) (key b) = true)
                 (sort_insert before key x l).
Proof.
  induction 1 as [|y l Hs IH Hall]; simpl.
  - repeat constructor.
  - destruct (before (key x) (key y)) eqn:Hxy.
    + constructor; [by constructor|]. constructor; [done|].
      eapply Forall_impl; [exact Hall|]. intros z Hz. simpl in *.
      by eapply before_trans.
    + constructor; [done|]. apply Forall_forall.
      intros z [->|Hz]%sort_insert_elem; [by apply before_total|].
      by eapply Forall_forall in Hall.
Qed.

Lemma list_sort_sorted l :
  StronglySorted (λ a b, before (key a) (key b) = true)
                 (list_sort before key l).
Proof.
  induction l as [|x l IH]; simpl; [constructor|].
  by apply sort_insert_sorted.
Qed.

Lemma list_sort_elem l z : z ∈ list_sort before key l ↔ z ∈ l.
Proof.
  induction l as [|x l IH]; simpl; [done|].
  rewrite sort_insert_elem elem_of_cons IH. done.
Qed.

(** Stability: among the elements of one key the sort changes nothing. *)
Lemma sort_insert_at_key p x l :
  filter (λ y, key y = p) (sort_insert before key x l)
  = filter (λ y, key y = p) (x :: l).
Proof.
  induction l as [|y l IH]; simpl; [done|].
  destruct (before (key x) (key y)) eqn:Hxy; [done|].
  assert (key y ≠ key x) as Hne.
  { intros Heq. rewrite Heq before_refl in Hxy. done. }
  rewrite filter_cons IH !filter_cons.
  repeat case_decide; congruence.
Qed.

Lemma list_sort_at_key p l :
  filter (λ y, key y = p) (list_sort before key l)
  = filter (λ y, key y = p) l.
Proof.
  induction l as [|x l IH]; simpl; [done|].
  by rewrite sort_insert_at_key !filter_cons IH.
Qed.
End sorting.

Lemma StronglySorted_weaken {A} (R1 R2 : A → A → Prop) (l : list A) :
  (∀ x y, x ∈ l → y ∈ l → R1 x y → R2 x y) →
  StronglySorted R1 l → StronglySorted R2 l.
Proof.
  intros Himpl Hs. induction Hs as [|x l Hs IH Hall]; [constructor|].
  constructor.
  - apply IH. intros a b Ha Hb. apply Himpl; by right.
  - apply Forall_forall. intros y Hy. apply Himpl; [by left|by right|].
    by eapply Forall_forall in Hall.
Qed.

Lemma filter_ext_in {A} (P Q : A → Prop) `{!∀ x, Decision (P x)}
    `{!∀ x, Decision (Q x)} (l : list A) :
  (∀ x, x ∈ l → P x ↔ Q x) → filter P l = filter Q l.
Proof.
  induction l as [|x l IH]; intros Hext; [done|].
  rewrite !filter_cons IH.
  { intros y Hy. apply Hext. by right. }
  destruct (decide (P x)) as [HP|HP], (decide (Q x)) as [HQ|HQ]; try done.
  - destruct HQ. apply Hext; [by left|done].
  - destruct HP. apply Hext; [by left|done].
Qed.

Lemma sort_bids_at_price mem p l :
  Naive.at_price mem p (Naive.sort_bids mem l) = Naive.at_price mem p l.
Proof.
  apply (list_sort_at_key Z.geb (Naive.price_of mem)).
  intros k. apply Z.geb_le. lia.
Qed.

Lemma sort_asks_at_price mem p l :
  Naive.at_price mem p (Naive.sort_asks mem l) = Naive.at_price mem p l.
Proof.
  apply (list_sort_at_key Z.leb (Naive.price_of mem)).
  intros k. apply Z.leb_le. lia.
Qed.

Lemma sort_bids_sorted mem l :
  StronglySorted (λ x y, Naive.price_of mem y ≤ Naive.price_of mem x)
                 (Naive.sort_bids mem l).
Proof.
  eapply StronglySorted_weaken;
    [|apply (list_sort_sorted Z.geb (Naive.price_of mem))].
  - intros x y _ _ Hxy. simpl in Hxy. by apply Z.geb_le in Hxy.
  - intros k. apply Z.geb_le. lia.
  - intros j k Hjk. apply Z.geb_le.
    destruct (Z.geb_spec j k); [done|lia].
  - intros i j k ?%Z.geb_le ?%Z.geb_le. apply Z.geb_le. lia.
Qed.

Lemma sort_asks_sorted mem l :
  StronglySorted (λ x y, Naive.price_of mem x ≤ Naive.price_of mem y)
                 (Naive.sort_asks mem l).
Proof.
  eapply StronglySorted_weaken;
    [|apply (list_sort_sorted Z.leb (Naive.price_of mem))].
  - intros x y _ _ Hxy. simpl in Hxy. by apply Z.leb_le in Hxy.
  - intros k. apply Z.leb_le. lia.
  - intros j k Hjk. apply Z.leb_le.
    destruct (Z.leb_spec j k); [done|lia].
  - intros i j k ?%Z.leb_le ?%Z.leb_le. apply Z.leb_le. lia.
Qed.

Lemma NoDup_by_key (key : ref → Z) (l : list ref) :
  (∀ p, NoDup (filter (λ y, key y = p) l)) → NoDup l.
Proof.
  induction l as [|x l IH]; intros Hnd; [constructor|].
  apply NoDup_cons. split.
  - intros Hx. specialize (Hnd (key x)).
    rewrite filter_cons_True // in Hnd.
    apply NoDup_cons in Hnd as [Hnin _]. apply Hnin.
    by apply list_elem_of_filter.
  - apply IH. intros p. specialize (Hnd p). rewrite filter_cons in Hnd.
    destruct (decide (key x = p)); [|done].
    by apply NoDup_cons in Hnd as [_ ?].
Qed.

Lemma delete_NoDup_filter (l : list ref) (i : nat) (x : ref) :
  NoDup l → l !! i = Some x → delete i l = filter (λ y, y ≠ x) l.
Proof.
  intros Hnd Hi.
  apply list_elem_of_split_length in Hi as (l1 & l2 & -> & ->).
  by rewrite delete_middle filter_ne_middle.
Qed.

(** ** One naive list against one ladder *)

Section side_list.
Variables (mem : Store) (by_id : gmap Z ref) (s : string)
  (ladder : gmap Z (list ref)) (l : list ref).
Hypothesis Hwf : ladder_wf mem by_id s ladder.
Hypothesis Hcomplete : ladder_complete mem by_id s ladder.
Hypothesis Hids : ∀ id r, by_id !! id = Some r → order_id (mem !!! r) = id.
Hypothesis Hview : ∀ p, Naive.at_price mem p l = bucket ladder p.

Lemma elem_of_bucket x p :
  x ∈ bucket ladder p ↔ ∃ l', ladder !! p = Some l' ∧ x ∈ l'.
Proof.
  unfold bucket. destruct (ladder !! p) as [l'|]; simpl.
  - split; [by eauto|]. by intros (? & [= <-] & ?).
  - split; [by intros ?%elem_of_nil|]. by intros (? & ? & _).
Qed.

Lemma side_list_elem x :
  x ∈ l ↔ by_id !! Naive.id_of mem x = Some x ∧ side (mem !!! x) = s.
Proof.
  split.
  - intros Hx.
    assert (x ∈ bucket ladder (Naive.price_of mem x)) as Hb.
    { rewrite -Hview. by apply list_elem_of_filter. }
    apply elem_of_bucket in Hb as (l' & Hl' & Hin).
    destruct (Hwf _ _ Hl') as (_ & _ & Hel).
    by destruct (Hel x Hin) as (_ & ? & ?).
  - intros [Hx Hs]. destruct (Hcomplete _ _ Hx Hs) as (l' & Hl' & Hin).
    assert (x ∈ bucket ladder (Naive.price_of mem x)) as Hb.
    { apply elem_of_bucket. eauto. }
    rewrite -Hview in Hb. by apply list_elem_of_filter in Hb as [_ ?].
Qed.

Lemma NoDup_bucket p : NoDup (bucket ladder p).
Proof.
  unfold bucket. destruct (ladder !! p) as [l'|] eqn:Hp; simpl; [|constructor].
  by destruct (Hwf _ _ Hp) as (_ & ? & _).
Qed.

Lemma side_list_NoDup : NoDup l.
Proof.
  apply (NoDup_by_key (Naive.price_of mem)). intros p.
  fold (Naive.at_price mem p l). rewrite Hview. apply NoDup_bucket.
Qed.

(** The linear search of the naive book finds the indexed order. *)
Lemma find_id_Some id (r : ref) :
  by_id !! id = Some r → side (mem !!! r) = s →
  ∃ i, Naive.find_id mem id l = Some (i, r) ∧ l !! i = Some r.
Proof.
  intros Hr Hs.
  assert (r ∈ l) as Hin.
  { apply side_list_elem. unfold Naive.id_of. by rewrite (Hids _ _ Hr). }
  destruct (list_find_elem_of (λ x, Naive.id_of mem x = id) l r Hin)
    as [[i y] Hfind]; [by apply Hids|].
  pose proof Hfind as (Hi & Hy & _)%list_find_Some.
  assert (y = r) as ->.
  { apply list_elem_of_lookup_2, side_list_elem in Hi as [Hy' _].
    rewrite Hy in Hy'. congruence. }
  eauto.
Qed.

Lemma find_id_None id :
  (∀ r, by_id !! id = Some r → side (mem !!! r) ≠ s) →
  Naive.find_id mem id l = None.
Proof.
  intros Hno. apply list_find_None, Forall_forall.
  intros x [Hx Hs]%side_list_elem Hid. rewrite Hid in Hx.
  by apply (Hno x).
Qed.
End side_list.

(** ** The simulation, call by call *)

Section simulation.
Implicit Types (mem : Store) (nb : Naive.NaiveOrderBook)
  (ob : OptimizedOrderBook) (live : gset Z).

Lemma similar_bids_elem mem nb ob live x :
  similar mem nb ob live →
  x ∈ Naive.bids nb ↔
  orders_by_id ob !! Naive.id_of mem x = Some x ∧ side (mem !!! x) = "bid".
Proof.
  intros [[Hid Hb Ha Hbc Hac _ _] _ _ _ _ Hvb Hva].
  by apply (side_list_elem mem _ "bid" (bids_by_price ob)).
Qed.

Lemma similar_asks_elem mem nb ob live x :
  similar mem nb ob live →
  x ∈ Naive.asks nb ↔
  orders_by_id ob !! Naive.id_of mem x = Some x ∧ side (mem !!! x) = "ask".
Proof.
  intros [[Hid Hb Ha Hbc Hac _ _] _ _ _ _ Hvb Hva].
  by apply (side_list_elem mem _ "ask" (asks_by_price ob)).
Qed.

Lemma similar_allocated mem nb ob live x :
  similar mem nb ob live →
  x ∈ Naive.bids nb ∨ x ∈ Naive.asks nb → (x < length mem)%nat.
Proof.
  intros Hsim Hx. pose proof (sim_wf _ _ _ _ Hsim) as [Hid _ _ _ _ _ _].
  destruct Hx as [[Hx _]%(similar_bids_elem _ _ _ _ _ Hsim)
                 |[Hx _]%(similar_asks_elem _ _ _ _ _ Hsim)];
    by destruct (Hid _ _ Hx).
Qed.

Lemma extends_price_of mem mem' (x : ref) :
  extends mem mem' → (x < length mem)%nat →
  Naive.price_of mem' x = Naive.price_of mem x ∧
  Naive.id_of mem' x = Naive.id_of mem x ∧
  side (mem' !!! x) = side (mem !!! x).
Proof.
  intros [_ Hext] Hx. destruct (Hext x Hx) as [q Hq].
  unfold Naive.price_of, Naive.id_of. by rewrite Hq.
Qed.

Lemma similar_extends mem mem' nb ob live :
  extends mem mem' → similar mem nb ob live → similar mem' nb ob live.
Proof.
  intros Hext Hsim. pose proof Hsim as [Hwf Hlive Hsides Hsb Hsa Hvb Hva].
  pose proof Hwf as [Hid _ _ _ _ _ _].
  assert (Hp : ∀ x, x ∈ Naive.bids nb ∨ x ∈ Naive.asks nb →
            Naive.price_of mem' x = Naive.price_of mem x).
  { intros x Hx. apply extends_price_of; [done|].
    by eapply similar_allocated. }
  split; [by eapply wf_extends|done| | | | |].
  - intros id r Hr. destruct (Hid _ _ Hr) as [Hlen _].
    destruct (extends_price_of mem mem' r Hext Hlen) as (_ & _ & ->). eauto.
  - eapply StronglySorted_weaken; [|exact Hsb].
    intros x y Hx Hy. simpl. rewrite !Hp; auto.
  - eapply StronglySorted_weaken; [|exact Hsa].
    intros x y Hx Hy. simpl. rewrite !Hp; auto.
  - intros p. rewrite -Hvb. apply filter_ext_in. intros x Hx. rewrite Hp; auto.
  - intros p. rewrite -Hva. apply filter_ext_in. intros x Hx. rewrite Hp; auto.
Qed.

(** Sorting again changes nothing the simulation looks at. *)
Lemma similar_sort_bids mem nb ob live :
  similar mem nb ob live →
  similar mem (Naive.mkBook (Naive.sort_bids mem (Naive.bids nb))
                            (Naive.asks nb)) ob live.
Proof.
  intros [Hwf Hlive Hsides Hsb Hsa Hvb Hva].
  split; simpl; [done..|apply sort_bids_sorted|done| |done].
  intros p. by rewrite sort_bids_at_price.
Qed.

Lemma similar_sort_asks mem nb ob live :
  similar mem nb ob live →
  similar mem (Naive.mkBook (Naive.bids nb)
                            (Naive.sort_asks mem (Naive.asks nb))) ob live.
Proof.
  intros [Hwf Hlive Hsides Hsb Hsa Hvb Hva].
  split; simpl; [done..|apply sort_asks_sorted| |].
  - done.
  - intros p. by rewrite sort_asks_at_price.
Qed.

Lemma similar_find_bid mem nb ob live id (r : ref) :
  similar mem nb ob live →
  orders_by_id ob !! id = Some r → side (mem !!! r) = "bid" →
  ∃ i, Naive.find_id mem id (Naive.bids nb) = Some (i, r) ∧
       Naive.bids nb !! i = Some r.
Proof.
  intros [[Hid Hb Ha Hbc Hac _ _] _ _ _ _ Hvb Hva] Hr Hs.
  apply (find_id_Some mem (orders_by_id ob) "bid" (bids_by_price ob));
    try done.
  intros id' r' Hr'. by destruct (Hid _ _ Hr').
Qed.

Lemma similar_find_ask mem nb ob live id (r : ref) :
  similar mem nb ob live →
  orders_by_id ob !! id = Some r → side (mem !!! r) = "ask" →
  ∃ i, Naive.find_id mem id (Naive.asks nb) = Some (i, r) ∧
       Naive.asks nb !! i = Some r.
Proof.
  intros [[Hid Hb Ha Hbc Hac _ _] _ _ _ _ Hvb Hva] Hr Hs.
  apply (find_id_Some mem (orders_by_id ob) "ask" (asks_by_price ob));
    try done.
  intros id' r' Hr'. by destruct (Hid _ _ Hr').
Qed.

Lemma similar_find_no_bid mem nb ob live id :
  similar mem nb ob live →
  (∀ r, orders_by_id ob !! id = Some r → side (mem !!! r) ≠ "bid") →
  Naive.find_id mem id (Naive.bids nb) = None.
Proof.
  intros [[Hid Hb Ha Hbc Hac _ _] _ _ _ _ Hvb Hva] Hno.
  by apply (find_id_None mem (orders_by_id ob) "bid" (bids_by_price ob)).
Qed.

Lemma similar_find_no_ask mem nb ob live id :
  similar mem nb ob live →
  (∀ r, orders_by_id ob !! id = Some r → side (mem !!! r) ≠ "ask") →
  Naive.find_id mem id (Naive.asks nb) = None.
Proof.
  intros [[Hid Hb Ha Hbc Hac _ _] _ _ _ _ Hvb Hva] Hno.
  by apply (find_id_None mem (orders_by_id ob) "ask" (asks_by_price ob)).
Qed.

Lemma similar_lookup_order mem nb ob live id :
  similar mem nb ob live →
  Naive.lookup_order mem nb id = lookup_order ob id.
Proof.
  intros Hsim. unfold Naive.lookup_order, lookup_order.
  destruct (orders_by_id ob !! id) as [r|] eqn:Hr.
  - destruct (sim_sides _ _ _ _ Hsim _ _ Hr) as [Hs|Hs].
    + destruct (similar_find_bid _ _ _ _ _ _ Hsim Hr Hs) as (i & -> & _). done.
    + rewrite (similar_find_no_bid _ _ _ _ _ Hsim).
      { intros r' Hr'. rewrite Hr in Hr'. injection Hr' as <-. by rewrite Hs. }
      destruct (similar_find_ask _ _ _ _ _ _ Hsim Hr Hs) as (i & -> & _). done.
  - rewrite (similar_find_no_bid _ _ _ _ _ Hsim); [by rewrite Hr|].
    rewrite (similar_find_no_ask _ _ _ _ _ Hsim); [by rewrite Hr|]. done.
Qed.

Lemma similar_get_orders_at_price mem nb ob live p sf :
  similar mem nb ob live →
  Naive.get_orders_at_price mem nb p sf = get_orders_at_price ob p sf.
Proof.
  intros Hsim. rewrite get_orders_at_price_bucket.
  unfold Naive.get_orders_at_price.
  rewrite -(sim_bids _ _ _ _ Hsim) -(sim_asks _ _ _ _ Hsim).
  destruct (side_is sf "bid"), (side_is sf "ask"); simpl;
    by rewrite ?app_nil_r.
Qed.

Lemma at_price_snoc mem p l (r : ref) :
  Naive.at_price mem p (l ++ [r])
  = Naive.at_price mem p l
    ++ (if bool_decide (Naive.price_of mem r = p) then [r] else []).
Proof.
  unfold Naive.at_price. rewrite filter_app. f_equal.
  rewrite filter_cons filter_nil. by case_decide; case_bool_decide.
Qed.

Lemma similar_add mem nb ob live o :
  similar mem nb ob live →
  order_id o ∉ live →
  side o = "bid" ∨ side o = "ask" →
  (Naive.add_order (mem ++ [o]) nb (length mem)).1 = Return () ∧
  (add_order (mem ++ [o]) ob (length mem)).1 = Return () ∧
  similar (mem ++ [o])
    (Naive.add_order (mem ++ [o]) nb (length mem)).2
    (add_order (mem ++ [o]) ob (length mem)).2
    ({[order_id o]} ∪ live).
Proof.
  intros Hsim Hfresh Hside.
  apply (similar_extends _ _ _ _ _ (extends_new_dict mem o)) in Hsim.
  simpl in Hsim. set (mem' := mem ++ [o]) in *.
  assert (mem' !!! length mem = o) as Hr.
  { unfold mem'. by rewrite list_lookup_total_middle. }
  assert (length mem < length mem')%nat as Hlen.
  { unfold mem'. rewrite length_app /=. lia. }
  pose proof Hsim as [Hwf Hlive Hsides Hsb Hsa Hvb Hva].
  assert (orders_by_id ob !! order_id o = None) as Hnone.
  { apply not_elem_of_dom. by rewrite Hlive. }
  destruct (add_order_ok mem' ob (length mem)) as (Hret & Hidx & Hb & Ha).
  { by rewrite Hr. }
  { by rewrite Hr. }
  pose proof (wf_add_order mem' ob _ Hlen Hwf) as Hwf'.
  rewrite Hr in Hidx, Hb, Ha.
  assert (Hsides' : ∀ id r, orders_by_id (add_order mem' ob (length mem)).2
                              !! id = Some r →
            side (mem' !!! r) = "bid" ∨ side (mem' !!! r) = "ask").
  { intros id r. rewrite Hidx.
    destruct (decide (order_id o = id)) as [<-|].
    - rewrite lookup_insert_eq. intros [= <-]. by rewrite Hr.
    - rewrite lookup_insert_ne //. apply Hsides. }
  assert (Hlive' : dom (orders_by_id (add_order mem' ob (length mem)).2)
                   = {[order_id o]} ∪ live).
  { by rewrite Hidx dom_insert_L Hlive. }
  unfold Naive.add_order. rewrite Hr.
  destruct Hside as [Hs|Hs]; rewrite Hs; simpl; (split; [done|]);
    (split; [done|]); split; simpl; try done.
  - apply sort_bids_sorted.
  - intros p. rewrite sort_bids_at_price at_price_snoc Hb Hvb.
    unfold Naive.price_of. rewrite Hr Hs. f_equal.
    repeat case_bool_decide; naive_solver.
  - intros p. rewrite Ha Hva Hs bool_decide_eq_false_2; [by intros []|].
    by rewrite app_nil_r.
  - apply sort_asks_sorted.
  - intros p. rewrite Hb Hvb Hs bool_decide_eq_false_2; [by intros []|].
    by rewrite app_nil_r.
  - intros p. rewrite sort_asks_at_price at_price_snoc Ha Hva.
    unfold Naive.price_of. rewrite Hr Hs. f_equal.
    repeat case_bool_decide; naive_solver.
Qed.

Lemma similar_amend mem nb ob live id q :
  similar mem nb ob live →
  (Naive.amend_order mem nb id q).1 = amend_order mem ob id q ∧
  similar (amend_order mem ob id q).2 (Naive.amend_order mem nb id q).2
          ob live.
Proof.
  intros Hsim.
  pose proof (similar_extends _ _ _ _ _ (extends_amend mem ob id q) Hsim)
    as Hsim'.
  unfold Naive.amend_order, amend_order in *.
  destruct (orders_by_id ob !! id) as [r|] eqn:Hr.
  - destruct (sim_sides _ _ _ _ Hsim _ _ Hr) as [Hs|Hs].
    + destruct (similar_find_bid _ _ _ _ _ _ Hsim Hr Hs) as (i & -> & _).
      simpl. split; [done|]. by apply similar_sort_bids.
    + rewrite (similar_find_no_bid _ _ _ _ _ Hsim).
      { intros r' Hr'. rewrite Hr in Hr'. injection Hr' as <-. by rewrite Hs. }
      destruct (similar_find_ask _ _ _ _ _ _ Hsim Hr Hs) as (i & -> & _).
      simpl. split; [done|]. by apply similar_sort_asks.
  - rewrite (similar_find_no_bid _ _ _ _ _ Hsim); [by rewrite Hr|].
    rewrite (similar_find_no_ask _ _ _ _ _ Hsim); [by rewrite Hr|].
    simpl. split; [done|]. by destruct nb.
Qed.

Lemma at_price_delete mem p l (i : nat) (r : ref) :
  NoDup l → l !! i = Some r →
  Naive.at_price mem p (delete i l)
  = filter (λ x, x ≠ r) (Naive.at_price mem p l).
Proof.
  intros Hnd Hi. rewrite (delete_NoDup_filter l i r) //.
  unfold Naive.at_price. rewrite !list_filter_filter.
  apply list_filter_iff. naive_solver.
Qed.

Lemma similar_delete mem nb ob live id :
  similar mem nb ob live →
  (delete_order mem ob id).1 = Return (Naive.delete_order mem nb id).1 ∧
  similar mem (Naive.delete_order mem nb id).2 (delete_order mem ob id).2
          (live ∖ {[id]}).
Proof.
  intros Hsim. pose proof Hsim as [Hwf Hlive Hsides Hsb Hsa Hvb Hva].
  pose proof Hwf as [Hid Hb Ha Hbc Hac _ _].
  destruct (orders_by_id ob !! id) as [r|] eqn:Hr; last first.
  { unfold Naive.delete_order, delete_order. rewrite Hr.
    rewrite (similar_find_no_bid _ _ _ _ _ Hsim); [by rewrite Hr|].
    rewrite (similar_find_no_ask _ _ _ _ _ Hsim); [by rewrite Hr|].
    simpl. split; [done|].
    assert (live ∖ {[id]} = live) as ->; [|done].
    apply not_elem_of_dom in Hr. set_solver. }
  destruct (delete_order_ok mem ob id r Hwf Hr) as (Hret & Hidx & Hb' & Ha').
  destruct (wf_delete_order mem ob id Hwf) as [Hwf' _].
  assert (Hlive' : dom (orders_by_id (delete_order mem ob id).2)
                   = live ∖ {[id]}).
  { by rewrite Hidx dom_delete_L Hlive. }
  assert (Hsides' : ∀ id' r', orders_by_id (delete_order mem ob id).2
                                !! id' = Some r' →
            side (mem !!! r') = "bid" ∨ side (mem !!! r') = "ask").
  { intros id' r'. rewrite Hidx. intros Hr'%lookup_delete_Some.
    destruct Hr' as [_ Hr']. by eapply Hsides. }
  assert (Hnb : NoDup (Naive.bids nb)).
  { by apply (side_list_NoDup mem (orders_by_id ob) "bid" (bids_by_price ob)). }
  assert (Hna : NoDup (Naive.asks nb)).
  { by apply (side_list_NoDup mem (orders_by_id ob) "ask" (asks_by_price ob)). }
  rewrite Hret. unfold Naive.delete_order.
  destruct (Hsides _ _ Hr) as [Hs|Hs].
  - destruct (similar_find_bid _ _ _ _ _ _ Hsim Hr Hs) as (i & -> & Hi).
    simpl. split; [done|]. split; simpl; try done.
    + apply sort_bids_sorted.
    + intros p. by rewrite sort_bids_at_price (at_price_delete _ _ _ i r) // Hb' Hvb.
    + intros p. rewrite Ha' -Hva filter_ne_id //.
      intros [_ Hin]%list_elem_of_filter.
      apply (similar_asks_elem _ _ _ _ _ Hsim) in Hin as [_ Hin].
      rewrite Hs in Hin. done.
  - rewrite (similar_find_no_bid _ _ _ _ _ Hsim).
    { intros r' Hr'. rewrite Hr in Hr'. injection Hr' as <-. by rewrite Hs. }
    destruct (similar_find_ask _ _ _ _ _ _ Hsim Hr Hs) as (i & -> & Hi).
    simpl. split; [done|]. split; simpl; try done.
    + apply sort_asks_sorted.
    + intros p. rewrite Hb' -Hvb filter_ne_id //.
      intros [_ Hin]%list_elem_of_filter.
      apply (similar_bids_elem _ _ _ _ _ Hsim) in Hin as [_ Hin].
      rewrite Hs in Hin. done.
    + intros p. by rewrite sort_asks_at_price (at_price_delete _ _ _ i r) // Ha' Hva.
Qed.

(** The head of the sorted naive list is what the drain loop finds. *)
Lemma similar_get_best_bid mem nb ob live :
  similar mem nb ob live →
  (get_best_bid ob).1 = Naive.get_best_bid nb ∧
  similar mem nb (get_best_bid ob).2 live.
Proof.
  intros Hsim. pose proof Hsim as [Hwf Hlive Hsides Hsb Hsa Hvb Hva].
  pose proof (wf_best_bid_correct mem ob Hwf)
    as (_ & Hnone & Hsome & _ & Hidx & Hbids & Hasks & _).
  pose proof (wf_get_best_bid mem ob Hwf) as Hwf'.
  split; last first.
  { split; rewrite ?Hidx ?Hbids ?Hasks; done. }
  unfold Naive.get_best_bid.
  destruct (Naive.bids nb) as [|x t] eqn:Hnb; simpl.
  - apply Hnone. intros r (id & Hr & Hs).
    assert (r ∈ Naive.bids nb) as Hin.
    { apply (similar_bids_elem _ _ _ _ _ Hsim). split; [|done].
      destruct Hwf as [Hid _ _ _ _ _ _]. destruct (Hid _ _ Hr) as [_ Hrid].
      unfold Naive.id_of. by rewrite Hrid. }
    rewrite Hnb in Hin. by apply elem_of_nil in Hin.
  - assert (x ∈ Naive.bids nb) as Hx by (rewrite Hnb; by left).
    apply (similar_bids_elem _ _ _ _ _ Hsim) in Hx as [Hx Hxs].
    assert (live_on mem ob "bid" x) as Hlx by (by eexists).
    destruct (get_best_bid ob).1 as [r|] eqn:Hfound; last first.
    { destruct (proj1 Hnone eq_refl x Hlx). }
    destruct (Hsome r eq_refl) as ((id & Hr & Hs) & Hmax & rest & Hbucket).
    assert (r ∈ x :: t) as Hin.
    { rewrite -Hnb. apply (similar_bids_elem _ _ _ _ _ Hsim). split; [|done].
      destruct Hwf as [Hid _ _ _ _ _ _]. destruct (Hid _ _ Hr) as [_ Hrid].
      unfold Naive.id_of. by rewrite Hrid. }
    assert (price (mem !!! r) = price (mem !!! x)) as Hp.
    { specialize (Hmax x Hlx).
      apply elem_of_cons in Hin as [->|Hin]; [done|].
      apply StronglySorted_inv in Hsb as [_ Hall].
      eapply Forall_forall in Hall; [|exact Hin].
      unfold Naive.price_of in Hall. lia. }
    specialize (Hvb (price (mem !!! x))).
    unfold Naive.at_price in Hvb. rewrite filter_cons_True // in Hvb.
    rewrite /bucket -Hp Hbucket /= in Hvb. by injection Hvb as ->.
Qed.

Lemma similar_get_best_ask mem nb ob live :
  similar mem nb ob live →
  (get_best_ask ob).1 = Naive.get_best_ask nb ∧
  similar mem nb (get_best_ask ob).2 live.
Proof.
  intros Hsim. pose proof Hsim as [Hwf Hlive Hsides Hsb Hsa Hvb Hva].
  pose proof (wf_best_ask_correct mem ob Hwf)
    as (_ & Hnone & Hsome & _ & Hidx & Hbids & Hasks & _).
  pose proof (wf_get_best_ask mem ob Hwf) as Hwf'.
  split; last first.
  { split; rewrite ?Hidx ?Hbids ?Hasks; done. }
  unfold Naive.get_best_ask.
  destruct (Naive.asks nb) as [|x t] eqn:Hnb; simpl.
  - apply Hnone. intros r (id & Hr & Hs).
    assert (r ∈ Naive.asks nb) as Hin.
    { apply (similar_asks_elem _ _ _ _ _ Hsim). split; [|done].
      destruct Hwf as [Hid _ _ _ _ _ _]. destruct (Hid _ _ Hr) as [_ Hrid].
      unfold Naive.id_of. by rewrite Hrid. }
    rewrite Hnb in Hin. by apply elem_of_nil in Hin.
  - assert (x ∈ Naive.asks nb) as Hx by (rewrite Hnb; by left).
    apply (similar_asks_elem _ _ _ _ _ Hsim) in Hx as [Hx Hxs].
    assert (live_on mem ob "ask" x) as Hlx by (by eexists).
    destruct (get_best_ask ob).1 as [r|] eqn:Hfound; last first.
    { destruct (proj1 Hnone eq_refl x Hlx). }
    destruct (Hsome r eq_refl) as ((id & Hr & Hs) & Hmin & rest & Hbucket).
    assert (r ∈ x :: t) as Hin.
    { rewrite -Hnb. apply (similar_asks_elem _ _ _ _ _ Hsim). split; [|done].
      destruct Hwf as [Hid _ _ _ _ _ _]. destruct (Hid _ _ Hr) as [_ Hrid].
      unfold Naive.id_of. by rewrite Hrid. }
    assert (price (mem !!! r) = price (mem !!! x)) as Hp.
    { specialize (Hmin x Hlx).
      apply elem_of_cons in Hin as [->|Hin]; [done|].
      apply StronglySorted_inv in Hsa as [_ Hall].
      eapply Forall_forall in Hall; [|exact Hin].
      unfold Naive.price_of in Hall. lia. }
    specialize (Hva (price (mem !!! x))).
    unfold Naive.at_price in Hva. rewrite filter_cons_True // in Hva.
    rewrite /bucket -Hp Hbucket /= in Hva. by injection Hva as ->.
Qed.
End simulation.

Lemma similar_init : similar [] Naive.init init ∅.
Proof.
  split; simpl; try done.
  - apply wf_init.
  - constructor.
  - constructor.
Qed.

Lemma run_similar cs mem nb ob live :
  similar mem nb ob live →
  fresh_ids live cs = true →
  run naive_call (mem, nb) cs = run optimized_call (mem, ob) cs.
Proof.
  revert mem nb ob live.
  induction cs as [|c cs IH]; intros mem nb ob live Hsim Hfresh; [done|].
  destruct c as [o|id q|id|id|p sf| | |]; simpl in Hfresh |- *.
  - apply andb_prop in Hfresh as [[Hid Hside]%andb_prop Hfresh].
    apply bool_decide_eq_true in Hid.
    assert (side o = "bid" ∨ side o = "ask") as Hside'.
    { apply orb_prop in Hside as [?%String.eqb_eq|?%String.eqb_eq]; auto. }
    destruct (similar_add mem nb ob live o Hsim Hid Hside')
      as (Hn & Ho & Hsim').
    destruct (Naive.add_order (mem ++ [o]) nb (length mem)) as [rn nb'].
    destruct (add_order (mem ++ [o]) ob (length mem)) as [ro ob'].
    simpl in *. subst rn ro. f_equal. by eapply IH.
  - destruct (similar_amend mem nb ob live id q Hsim) as [Heq Hsim'].
    destruct (Naive.amend_order mem nb id q) as [[b mem'] nb'].
    destruct (amend_order mem ob id q) as [b' mem''].
    simpl in *. injection Heq as <- <-. f_equal. by eapply IH.
  - destruct (similar_delete mem nb ob live id Hsim) as [Heq Hsim'].
    destruct (Naive.delete_order mem nb id) as [b nb'].
    destruct (delete_order mem ob id) as [res ob'].
    simpl in *. subst res. simpl. f_equal. by eapply IH.
  - rewrite (similar_lookup_order _ _ _ _ _ Hsim). f_equal. by eapply IH.
  - rewrite (similar_get_orders_at_price _ _ _ _ _ _ Hsim). f_equal.
    by eapply IH.
  - destruct (similar_get_best_bid mem nb ob live Hsim) as [Heq Hsim'].
    destruct (get_best_bid ob) as [found ob']. simpl in *. subst found.
    f_equal. by eapply IH.
  - destruct (similar_get_best_ask mem nb ob live Hsim) as [Heq Hsim'].
    destruct (get_best_ask ob) as [found ob']. simpl in *. subst found.
    f_equal. by eapply IH.
  - unfold get_best_bid_ask.
    destruct (similar_get_best_bid mem nb ob live Hsim) as [Heq Hsim'].
    destruct (get_best_bid ob) as [bid ob']. simpl in *. subst bid.
    destruct (similar_get_best_ask mem nb ob' live Hsim') as [Heq Hsim''].
    destruct (get_best_ask ob') as [ask ob'']. simpl in *. subst ask.
    f_equal. by eapply IH.
Qed.

(** C3. On every sequence of calls in which each added order has a side of
    the book and an identifier no order of the book has at that time, the
    naive and the optimized book return the same outcomes, call by call:
    the same orders by their four attributes, the same lists in the same
    order, the same booleans, the same [None]s. *)
Theorem naive_optimized_equivalent cs :
  fresh_ids ∅ cs = true →
  run naive_call ([], Naive.init) cs = run optimized_call ([], init) cs.
Proof. apply run_similar, similar_init. Qed.

Lemma naive_optimized_equivalent_witness :
  fresh_ids ∅ scenario_calls = true ∧
  run naive_call ([], Naive.init) scenario_calls
  = run optimized_call ([], init) scenario_calls.
Proof.
  split; [reflexivity|].
  apply (naive_optimized_equivalent scenario_calls). reflexivity.
Defined.

(** * More about the optimized book *)

Section optimized_more.
Implicit Types (mem : Store) (by_id : gmap Z ref)
  (ladder : gmap Z (list ref)) (heap : list Z) (self : OptimizedOrderBook).

Lemma delete_order_index mem self id :
  orders_by_id (delete_order mem self id).2 = delete id (orders_by_id self).
Proof.
  unfold delete_order.
  destruct (orders_by_id self !! id) as [r|] eqn:Hr; simpl.
  - destruct (String.eqb _ "bid");
      [by destruct (remove_from_ladder _ _ _ _)|].
    destruct (String.eqb _ "ask"); [|done].
    by destruct (remove_from_ladder _ _ _ _).
  - by rewrite delete_id.
Qed.

Lemma delete_order_heaps mem self id :
  bid_heap (delete_order mem self id).2 = bid_heap self ∧
  ask_heap (delete_order mem self id).2 = ask_heap self.
Proof.
  unfold delete_order.
  destruct (orders_by_id self !! id) as [r|]; simpl; [|done].
  destruct (String.eqb _ "bid");
    [by destruct (remove_from_ladder _ _ _ _)|].
  destruct (String.eqb _ "ask"); [|done].
  by destruct (remove_from_ladder _ _ _ _).
Qed.

Lemma bucket_nil_lookup mem by_id s ladder p :
  ladder_wf mem by_id s ladder → bucket ladder p = [] → ladder !! p = None.
Proof.
  intros Hl. unfold bucket. destruct (ladder !! p) as [l|] eqn:Hp; [|done].
  simpl. intros ->. by destruct (Hl _ _ Hp) as (? & _).
Qed.

(** Two well-formed ladders with the same buckets are the same map. *)
Lemma ladder_eq_buckets mem by_id1 by_id2 s ladder1 ladder2 :
  ladder_wf mem by_id1 s ladder1 →
  ladder_wf mem by_id2 s ladder2 →
  (∀ p, bucket ladder1 p = bucket ladder2 p) →
  ladder1 = ladder2.
Proof.
  intros H1 H2 Hb. apply map_eq. intros p. specialize (Hb p).
  unfold bucket in Hb.
  destruct (ladder1 !! p) as [l1|] eqn:Hp1, (ladder2 !! p) as [l2|] eqn:Hp2;
    simpl in Hb; subst; try done.
  - by destruct (H1 _ _ Hp1) as (? & _).
  - by destruct (H2 _ _ Hp2) as (? & _).
Qed.

Lemma bucket_lookup ladder p l :
  ladder !! p = Some l → bucket ladder p = l.
Proof. unfold bucket. by intros ->. Qed.
End optimized_more.

(** X1. On a reachable book [delete_order] never raises: it returns [True]
    exactly when the identifier was indexed; afterwards the identifier is
    gone from the index and every other identifier is looked up as
    before. *)
Theorem delete_order_never_raises mem self id :
  reachable mem self →
  (delete_order mem self id).1
  = Return (bool_decide (is_Some (lookup_order self id))) ∧
  lookup_order (delete_order mem self id).2 id = None ∧
  ∀ id', id' ≠ id →
    lookup_order (delete_order mem self id).2 id' = lookup_order self id'.
Proof.
  intros Hwf%reachable_wf.
  destruct (wf_delete_order mem self id Hwf) as [_ Hret].
  unfold lookup_order. rewrite delete_order_index. split_and!; [done| |].
  - apply lookup_delete_eq.
  - intros id' Hne. by rewrite lookup_delete_ne.
Qed.

Lemma delete_order_never_raises_witness :
  reachable scenario_mem scenario_book ∧
  (delete_order scenario_mem scenario_book 2).1
  = Return (bool_decide (is_Some (lookup_order scenario_book 2))) ∧
  lookup_order (delete_order scenario_mem scenario_book 2).2 2 = None ∧
  ∀ id', id' ≠ 2 →
    lookup_order (delete_order scenario_mem scenario_book 2).2 id'
    = lookup_order scenario_book id'.
Proof.
  split; [apply scenario_reachable|].
  apply (delete_order_never_raises scenario_mem scenario_book 2).
  apply scenario_reachable.
Defined.

(** X2. Lazy deletion: [delete_order] leaves both heaps as they are.  When
    it deletes the only order at a price, the price key leaves the ladder
    while the price stays in that side's heap. *)
Theorem delete_order_leaves_stale_entry mem self id (r : ref) :
  reachable mem self →
  orders_by_id self !! id = Some r →
  bid_heap (delete_order mem self id).2 = bid_heap self ∧
  ask_heap (delete_order mem self id).2 = ask_heap self ∧
  (bids_by_price self !! price (mem !!! r) = Some [r] →
     bids_by_price (delete_order mem self id).2 !! price (mem !!! r) = None ∧
     - price (mem !!! r) ∈ bid_heap (delete_order mem self id).2) ∧
  (asks_by_price self !! price (mem !!! r) = Some [r] →
     asks_by_price (delete_order mem self id).2 !! price (mem !!! r) = None ∧
     price (mem !!! r) ∈ ask_heap (delete_order mem self id).2).
Proof.
  intros Hwf%reachable_wf Hr.
  destruct (delete_order_heaps mem self id) as [Hbh Hah].
  destruct (delete_order_ok mem self id r Hwf Hr) as (_ & _ & Hb & Ha).
  destruct (wf_delete_order mem self id Hwf) as [[_ Hb' Ha' _ _ _ _] _].
  pose proof Hwf as [_ _ _ _ _ [_ Hbin] [_ Hain]].
  rewrite Hbh Hah. split_and!; [done..| |].
  - intros Hp. split; [|by apply Hbin].
    eapply bucket_nil_lookup; [exact Hb'|].
    rewrite Hb (bucket_lookup _ _ _ Hp) filter_cons_False; [by intros []|].
    done.
  - intros Hp. split; [|by apply (Hain _ (mk_is_Some _ _ Hp))].
    eapply bucket_nil_lookup; [exact Ha'|].
    rewrite Ha (bucket_lookup _ _ _ Hp) filter_cons_False; [by intros []|].
    done.
Qed.

Lemma delete_order_leaves_stale_entry_witness :
  reachable scenario_mem scenario_book ∧
  orders_by_id scenario_book !! 2 = Some 1%nat ∧
  bid_heap (delete_order scenario_mem scenario_book 2).2
  = bid_heap scenario_book ∧
  ask_heap (delete_order scenario_mem scenario_book 2).2
  = ask_heap scenario_book ∧
  (bids_by_price scenario_book !! price (scenario_mem !!! 1%nat)
   = Some [1%nat] →
     bids_by_price (delete_order scenario_mem scenario_book 2).2
       !! price (scenario_mem !!! 1%nat) = None ∧
     - price (scenario_mem !!! 1%nat)
       ∈ bid_heap (delete_order scenario_mem scenario_book 2).2) ∧
  (asks_by_price scenario_book !! price (scenario_mem !!! 1%nat)
   = Some [1%nat] →
     asks_by_price (delete_order scenario_mem scenario_book 2).2
       !! price (scenario_mem !!! 1%nat) = None ∧
     price (scenario_mem !!! 1%nat)
       ∈ ask_heap (delete_order scenario_mem scenario_book 2).2).
Proof.
  split; [apply scenario_reachable|]. split; [reflexivity|].
  apply (delete_order_leaves_stale_entry scenario_mem scenario_book 2 1%nat).
  - apply scenario_reachable.
  - reflexivity.
Defined.

Lemma fresh_not_in_bucket mem by_id s ladder (r : ref) p :
  ladder_wf mem by_id s ladder →
  by_id !! order_id (mem !!! r) = None →
  r ∉ bucket ladder p.
Proof.
  intros Hl Hfresh Hin. unfold bucket in Hin.
  destruct (ladder !! p) as [l|] eqn:Hp; simpl in Hin;
    [|by apply elem_of_nil in Hin].
  destruct (Hl _ _ Hp) as (_ & _ & Hel).
  destruct (Hel r Hin) as (_ & _ & ?). congruence.
Qed.

(** X3. Adding an order with a fresh identifier and then deleting it gives
    back the index and both ladders exactly; only a heap may have gained an
    entry. *)
Theorem add_then_delete_restores mem self (r : ref) :
  reachable mem self →
  (r < length mem)%nat →
  orders_by_id self !! order_id (mem !!! r) = None →
  side (mem !!! r) = "bid" ∨ side (mem !!! r) = "ask" →
  (delete_order mem (add_order mem self r).2 (order_id (mem !!! r))).1
  = Return true ∧
  orders_by_id
    (delete_order mem (add_order mem self r).2 (order_id (mem !!! r))).2
  = orders_by_id self ∧
  bids_by_price
    (delete_order mem (add_order mem self r).2 (order_id (mem !!! r))).2
  = bids_by_price self ∧
  asks_by_price
    (delete_order mem (add_order mem self r).2 (order_id (mem !!! r))).2
  = asks_by_price self.
Proof.
  intros Hwf%reachable_wf Hlen Hfresh Hside.
  destruct (add_order_ok mem self r Hfresh Hside) as (_ & Hidx1 & Hb1 & Ha1).
  pose proof (wf_add_order mem self r Hlen Hwf) as Hwf1.
  set (self1 := (add_order mem self r).2) in *.
  assert (orders_by_id self1 !! order_id (mem !!! r) = Some r) as Hr.
  { rewrite Hidx1. apply lookup_insert_eq. }
  destruct (delete_order_ok mem self1 _ r Hwf1 Hr) as (Hret & Hidx2 & Hb2 & Ha2).
  destruct (wf_delete_order mem self1 (order_id (mem !!! r)) Hwf1)
    as [Hwf2 _].
  set (self2 := (delete_order mem self1 (order_id (mem !!! r))).2) in *.
  pose proof Hwf as [_ Hb Ha _ _ _ _]. pose proof Hwf2 as [_ Hb' Ha' _ _ _ _].
  assert (Hundo : ∀ l (b : bool),
            r ∉ l → filter (λ x, x ≠ r) (l ++ (if b then [r] else [])) = l).
  { intros l b Hnin. rewrite filter_app filter_ne_id //.
    destruct b; [|by rewrite app_nil_r].
    rewrite filter_cons_False; [by intros []|]. by rewrite app_nil_r. }
  split_and!; [done| | |].
  - by rewrite Hidx2 Hidx1 delete_insert_id.
  - eapply ladder_eq_buckets; [exact Hb'|exact Hb|].
    intros p. rewrite Hb2 Hb1. apply Hundo.
    by eapply fresh_not_in_bucket.
  - eapply ladder_eq_buckets; [exact Ha'|exact Ha|].
    intros p. rewrite Ha2 Ha1. apply Hundo.
    by eapply fresh_not_in_bucket.
Qed.

Lemma add_then_delete_restores_witness :
  reachable fifo_mem init ∧
  (0 < length fifo_mem)%nat ∧
  orders_by_id init !! order_id (fifo_mem !!! 0%nat) = None ∧
  (side (fifo_mem !!! 0%nat) = "bid" ∨ side (fifo_mem !!! 0%nat) = "ask") ∧
  (delete_order fifo_mem (add_order fifo_mem init 0%nat).2
     (order_id (fifo_mem !!! 0%nat))).1 = Return true ∧
  orders_by_id
    (delete_order fifo_mem (add_order fifo_mem init 0%nat).2
       (order_id (fifo_mem !!! 0%nat))).2 = orders_by_id init ∧
  bids_by_price
    (delete_order fifo_mem (add_order fifo_mem init 0%nat).2
       (order_id (fifo_mem !!! 0%nat))).2 = bids_by_price init ∧
  asks_by_price
    (delete_order fifo_mem (add_order fifo_mem init 0%nat).2
       (order_id (fifo_mem !!! 0%nat))).2 = asks_by_price init.
Proof.
  split; [apply fifo_mem_reachable|]. split; [simpl; lia|].
  split; [reflexivity|]. split; [by left|].
  apply (add_then_delete_restores fifo_mem init 0%nat).
  - apply fifo_mem_reachable.
  - simpl; lia.
  - reflexivity.
  - by left.
Defined.

(** X4. In every reachable state each price that has a bucket is in its
    side's heap: negated in [bid_heap] for bids, as it is in [ask_heap] for
    asks. *)
Theorem ladder_prices_in_heap mem self p :
  reachable mem self →
  (is_Some (bids_by_price self !! p) → - p ∈ bid_heap self) ∧
  (is_Some (asks_by_price self !! p) → p ∈ ask_heap self).
Proof.
  intros [_ _ _ _ _ [_ Hb] [_ Ha]]%reachable_wf. split; [apply Hb|apply Ha].
Qed.

Lemma ladder_prices_in_heap_witness :
  reachable scenario_mem scenario_after_delete ∧
  (is_Some (bids_by_price scenario_after_delete !! 100) →
   - 100 ∈ bid_heap scenario_after_delete) ∧
  (is_Some (asks_by_price scenario_after_delete !! 100) →
   100 ∈ ask_heap scenario_after_delete).
Proof.
  split; [apply scenario_after_delete_reachable|].
  apply (ladder_prices_in_heap scenario_mem scenario_after_delete 100).
  apply scenario_after_delete_reachable.
Defined.

(** X5. In every reachable state an indexed order is stored under its own
    identifier, and an order of side "bid" (or "ask") rests once in the
    bucket of its price on its own side and in no other bucket of either
    ladder; an order of any other side rests in no bucket at all. *)
Theorem indexed_order_rests_once mem self id (r : ref) :
  reachable mem self →
  orders_by_id self !! id = Some r →
  order_id (mem !!! r) = id ∧
  (∀ p, r ∈ bucket (bids_by_price self) p ↔
        side (mem !!! r) = "bid" ∧ price (mem !!! r) = p) ∧
  (∀ p, r ∈ bucket (asks_by_price self) p ↔
        side (mem !!! r) = "ask" ∧ price (mem !!! r) = p) ∧
  (∀ p, NoDup (bucket (bids_by_price self) p)) ∧
  (∀ p, NoDup (bucket (asks_by_price self) p)).
Proof.
  intros [Hid Hb Ha Hbc Hac _ _]%reachable_wf Hr.
  assert (Hin : ∀ s ladder, ladder_wf mem (orders_by_id self) s ladder →
            ladder_complete mem (orders_by_id self) s ladder →
            ∀ p, r ∈ bucket ladder p ↔
                 side (mem !!! r) = s ∧ price (mem !!! r) = p).
  { intros s ladder Hl Hc p. rewrite elem_of_bucket. split.
    - intros (l & Hp & Hrl). destruct (Hl _ _ Hp) as (_ & _ & Hel).
      by destruct (Hel r Hrl) as (? & ? & _).
    - intros [Hs <-]. by apply (Hc id). }
  split_and!; [by destruct (Hid _ _ Hr)|by apply Hin|by apply Hin| |].
  - intros p. by eapply NoDup_bucket.
  - intros p. by eapply NoDup_bucket.
Qed.

Lemma indexed_order_rests_once_witness :
  reachable scenario_mem scenario_book ∧
  orders_by_id scenario_book !! 4 = Some 2%nat ∧
  order_id (scenario_mem !!! 2%nat) = 4 ∧
  (∀ p, 2%nat ∈ bucket (bids_by_price scenario_book) p ↔
        side (scenario_mem !!! 2%nat) = "bid" ∧
        price (scenario_mem !!! 2%nat) = p) ∧
  (∀ p, 2%nat ∈ bucket (asks_by_price scenario_book) p ↔
        side (scenario_mem !!! 2%nat) = "ask" ∧
        price (scenario_mem !!! 2%nat) = p) ∧
  (∀ p, NoDup (bucket (bids_by_price scenario_book) p)) ∧
  (∀ p, NoDup (bucket (asks_by_price scenario_book) p)).
Proof.
  split; [apply scenario_reachable|]. split; [reflexivity|].
  apply (indexed_order_rests_once scenario_mem scenario_book 4 2%nat).
  - apply scenario_reachable.
  - reflexivity.
Defined.

(** X6. An order rejected for its side can be taken out again: after the
    failed [add_order], [delete_order] on its identifier returns [True] and
    gives back exactly the book there was before the [add_order]. *)
Theorem rejected_add_undone_by_delete mem self (r : ref) :
  orders_by_id self !! order_id (mem !!! r) = None →
  side (mem !!! r) ≠ "bid" → side (mem !!! r) ≠ "ask" →
  delete_order mem (add_order mem self r).2 (order_id (mem !!! r))
  = (Return true, self).
Proof.
  intros Hfresh Hbid Hask. rewrite add_order_invalid_side //.
  apply String.eqb_neq in Hbid, Hask.
  unfold delete_order. simpl. rewrite lookup_insert_eq Hbid Hask.
  rewrite delete_insert_id //. by destruct self.
Qed.

Lemma rejected_add_undone_by_delete_witness :
  orders_by_id init !! order_id (bad_side_mem !!! 0%nat) = None ∧
  side (bad_side_mem !!! 0%nat) ≠ "bid" ∧
  side (bad_side_mem !!! 0%nat) ≠ "ask" ∧
  delete_order bad_side_mem (add_order bad_side_mem init 0%nat).2
    (order_id (bad_side_mem !!! 0%nat)) = (Return true, init).
Proof.
  split; [reflexivity|]. split; [by simpl|]. split; [by simpl|].
  apply (rejected_add_undone_by_delete bad_side_mem init 0%nat).
  - reflexivity.
  - by simpl.
  - by simpl.
Defined.

(** X7. The side filter of [get_orders_at_price], in both books: without
    a filter the bids at the price come first and the asks after them, and a
    filter that is neither "bid" nor "ask" gives the empty list, not an
    error. *)
Theorem get_orders_at_price_side_filter mem nb self p :
  get_orders_at_price self p None
  = get_orders_at_price self p (Some "bid")
    ++ get_orders_at_price self p (Some "ask") ∧
  Naive.get_orders_at_price mem nb p None
  = Naive.get_orders_at_price mem nb p (Some "bid")
    ++ Naive.get_orders_at_price mem nb p (Some "ask") ∧
  ∀ s, s ≠ "bid" → s ≠ "ask" →
    get_orders_at_price self p (Some s) = [] ∧
    Naive.get_orders_at_price mem nb p (Some s) = [].
Proof.
  split_and!.
  - rewrite !get_orders_at_price_bucket. simpl. by rewrite ?app_nil_r.
  - unfold Naive.get_orders_at_price. simpl. by rewrite ?app_nil_r.
  - intros s Hbid%String.eqb_neq Hask%String.eqb_neq.
    unfold get_orders_at_price, Naive.get_orders_at_price. simpl.
    by rewrite Hbid Hask.
Qed.

(** X8. [get_best_bid_ask] returns what [get_best_bid] and [get_best_ask]
    return on the same book, each unaffected by the other, and leaves the
    book both calls leave, in either order. *)
Theorem get_best_bid_ask_independent self :
  (get_best_bid_ask self).1 = ((get_best_bid self).1, (get_best_ask self).1) ∧
  (get_best_bid_ask self).2 = (get_best_ask (get_best_bid self).2).2 ∧
  (get_best_ask (get_best_bid self).2).2
  = (get_best_bid (get_best_ask self).2).2.
Proof.
  unfold get_best_bid_ask, get_best_bid, get_best_ask.
  destruct (best_bid_loop (bids_by_price self) (bid_heap self))
    as [bid bh] eqn:Hbid. simpl.
  destruct (best_ask_loop (asks_by_price self) (ask_heap self))
    as [ask ah] eqn:Hask. simpl.
  by rewrite Hbid.
Qed.

(** X9. [amend_order] writes one quantity and nothing else: it returns
    [True] exactly when the identifier is indexed, no order changes its
    identifier, price or side, every order other than the amended one is
    left as it is, and of two amendments in a row the second one stands. *)
Theorem amend_order_writes_one_quantity mem self id q :
  (amend_order mem self id q).1
  = bool_decide (is_Some (lookup_order self id)) ∧
  length (amend_order mem self id q).2 = length mem ∧
  (∀ x : ref,
     order_id ((amend_order mem self id q).2 !!! x) = order_id (mem !!! x) ∧
     price ((amend_order mem self id q).2 !!! x) = price (mem !!! x) ∧
     side ((amend_order mem self id q).2 !!! x) = side (mem !!! x)) ∧
  (∀ x : ref, lookup_order self id ≠ Some x →
     (amend_order mem self id q).2 !!! x = mem !!! x) ∧
  ∀ q', amend_order (amend_order mem self id q).2 self id q'
        = amend_order mem self id q'.
Proof.
  unfold amend_order, lookup_order.
  destruct (orders_by_id self !! id) as [r|] eqn:Hr; simpl.
  - split_and!.
    + done.
    + by rewrite length_insert.
    + intros x. destruct (lookup_total_set_quantity mem r x q) as [q'' ->].
      done.
    + intros x Hx. rewrite list_lookup_total_insert_ne //. congruence.
    + intros q'. f_equal. rewrite list_insert_insert_eq. f_equal.
      destruct (lookup_total_set_quantity mem r r q) as [q'' ->]. done.
  - by split_and!.
Qed.

Lemma bucket_cons_lookup ladder p (x : ref) t :
  bucket ladder p = x :: t → ladder !! p = Some (x :: t).
Proof.
  unfold bucket. destruct (ladder !! p); simpl; intros Heq; by simplify_eq.
Qed.

(** X10. On a reachable book [get_orders_at_price] with filter "bid" or
    "ask" returns, without repetition, exactly the indexed orders of that
    price and side. *)
Theorem get_orders_at_price_exact mem self p s (r : ref) :
  reachable mem self →
  s = "bid" ∨ s = "ask" →
  NoDup (get_orders_at_price self p (Some s)) ∧
  (r ∈ get_orders_at_price self p (Some s) ↔
   lookup_order self (order_id (mem !!! r)) = Some r ∧
   price (mem !!! r) = p ∧ side (mem !!! r) = s).
Proof.
  intros [Hid Hb Ha Hbc Hac _ _]%reachable_wf Hs.
  assert (Hin : ∀ s' ladder, ladder_wf mem (orders_by_id self) s' ladder →
            ladder_complete mem (orders_by_id self) s' ladder →
            r ∈ bucket ladder p ↔
            lookup_order self (order_id (mem !!! r)) = Some r ∧
            price (mem !!! r) = p ∧ side (mem !!! r) = s').
  { intros s' ladder Hl Hc. rewrite elem_of_bucket. split.
    - intros (l & Hp & Hrl). destruct (Hl _ _ Hp) as (_ & _ & Hel).
      by destruct (Hel r Hrl) as (? & ? & ?).
    - intros (Hr & <- & Hs'). by apply (Hc _ _ Hr). }
  rewrite get_orders_at_price_bucket.
  destruct Hs as [-> | ->]; simpl; rewrite ?app_nil_r.
  - split; [by eapply NoDup_bucket|by apply Hin].
  - split; [by eapply NoDup_bucket|by apply Hin].
Qed.

Lemma get_orders_at_price_exact_witness :
  reachable scenario_mem scenario_book ∧
  ("bid" = "bid" ∨ "bid" = "ask") ∧
  NoDup (get_orders_at_price scenario_book 100 (Some "bid")) ∧
  (0%nat ∈ get_orders_at_price scenario_book 100 (Some "bid") ↔
   lookup_order scenario_book (order_id (scenario_mem !!! 0%nat))
   = Some 0%nat ∧
   price (scenario_mem !!! 0%nat) = 100 ∧
   side (scenario_mem !!! 0%nat) = "bid").
Proof.
  split; [apply scenario_reachable|]. split; [by left|].
  apply (get_orders_at_price_exact scenario_mem scenario_book 100 "bid" 0%nat).
  - apply scenario_reachable.
  - by left.
Defined.

(** ** A new order against the best price *)

Section new_best.
Implicit Types (mem : Store) (self : OptimizedOrderBook).

(** The best bid is the only live bid of the highest price that heads its
    bucket. *)
Lemma best_bid_unique mem self (r : ref) :
  wf mem self →
  live_on mem self "bid" r →
  (∀ r', live_on mem self "bid" r' → price (mem !!! r') ≤ price (mem !!! r)) →
  (∃ rest, bids_by_price self !! price (mem !!! r) = Some (r :: rest)) →
  (get_best_bid self).1 = Some r.
Proof.
  intros Hwf Hlive Hmax [rest Hhead].
  destruct (wf_best_bid_correct mem self Hwf) as (_ & Hnone & Hsome & _).
  destruct (get_best_bid self).1 as [r0|]; last first.
  { destruct (proj1 Hnone eq_refl r Hlive). }
  destruct (Hsome r0 eq_refl) as (Hlive0 & Hmax0 & rest0 & Hhead0).
  assert (price (mem !!! r0) = price (mem !!! r)) as Hp.
  { specialize (Hmax r0 Hlive0). specialize (Hmax0 r Hlive). lia. }
  rewrite Hp Hhead in Hhead0. by injection Hhead0 as ->.
Qed.

Lemma best_ask_unique mem self (r : ref) :
  wf mem self →
  live_on mem self "ask" r →
  (∀ r', live_on mem self "ask" r' → price (mem !!! r) ≤ price (mem !!! r')) →
  (∃ rest, asks_by_price self !! price (mem !!! r) = Some (r :: rest)) →
  (get_best_ask self).1 = Some r.
Proof.
  intros Hwf Hlive Hmin [rest Hhead].
  destruct (wf_best_ask_correct mem self Hwf) as (_ & Hnone & Hsome & _).
  destruct (get_best_ask self).1 as [r0|]; last first.
  { destruct (proj1 Hnone eq_refl r Hlive). }
  destruct (Hsome r0 eq_refl) as (Hlive0 & Hmin0 & rest0 & Hhead0).
  assert (price (mem !!! r0) = price (mem !!! r)) as Hp.
  { specialize (Hmin r0 Hlive0). specialize (Hmin0 r Hlive). lia. }
  rewrite Hp Hhead in Hhead0. by injection Hhead0 as ->.
Qed.

Lemma live_on_add mem self (r : ref) s x :
  orders_by_id self !! order_id (mem !!! r) = None →
  side (mem !!! r) = "bid" ∨ side (mem !!! r) = "ask" →
  live_on mem (add_order mem self r).2 s x ↔
  (x = r ∧ side (mem !!! r) = s) ∨ live_on mem self s x.
Proof.
  intros Hfresh Hside.
  destruct (add_order_ok mem self r Hfresh Hside) as (_ & Hidx & _).
  unfold live_on. rewrite Hidx. split.
  - intros (id & Hx & Hs).
    destruct (decide (order_id (mem !!! r) = id)) as [<-|Hne].
    + rewrite lookup_insert_eq in Hx. injection Hx as <-. by left.
    + rewrite lookup_insert_ne // in Hx. right. by exists id.
  - intros [[-> Hs]|(id & Hx & Hs)].
    + exists (order_id (mem !!! r)). by rewrite lookup_insert_eq.
    + exists id. rewrite lookup_insert_ne //. congruence.
Qed.

(** An empty bucket on a well-formed side means no live order has that
    price; a bucket with a head has a live order of that price. *)
Lemma bucket_head_live_bid mem self p (x : ref) t :
  wf mem self →
  bucket (bids_by_price self) p = x :: t →
  live_on mem self "bid" x ∧ price (mem !!! x) = p.
Proof.
  intros [_ Hb _ _ _ _ _] Hp%bucket_cons_lookup.
  destruct (Hb _ _ Hp) as (_ & _ & Hel).
  destruct (Hel x) as (? & ? & ?); [by left|]. split; [by eexists|done].
Qed.

Lemma bucket_head_live_ask mem self p (x : ref) t :
  wf mem self →
  bucket (asks_by_price self) p = x :: t →
  live_on mem self "ask" x ∧ price (mem !!! x) = p.
Proof.
  intros [_ _ Ha _ _ _ _] Hp%bucket_cons_lookup.
  destruct (Ha _ _ Hp) as (_ & _ & Hel).
  destruct (Hel x) as (? & ? & ?); [by left|]. split; [by eexists|done].
Qed.
End new_best.

(** X11. Adding a bid with a fresh identifier to a reachable book moves the
    best bid only if the new price is strictly higher than the best one:
    [get_best_bid] then returns the new order, and otherwise the order it
    returned before; on a side without bids it returns the new order. *)
Theorem add_order_updates_best_bid mem self (r : ref) :
  reachable mem self →
  (r < length mem)%nat →
  orders_by_id self !! order_id (mem !!! r) = None →
  side (mem !!! r) = "bid" →
  (get_best_bid (add_order mem self r).2).1
  = match (get_best_bid self).1 with
    | Some old =>
        if price (mem !!! old) <? price (mem !!! r) then Some r else Some old
    | None => Some r
    end.
Proof.
  intros Hwf%reachable_wf Hlen Hfresh Hside.
  assert (side (mem !!! r) = "bid" ∨ side (mem !!! r) = "ask") as Hside'
    by by left.
  destruct (add_order_ok mem self r Hfresh Hside') as (_ & Hidx & Hb1 & _).
  pose proof (wf_add_order mem self r Hlen Hwf) as Hwf1.
  pose proof (λ s x, live_on_add mem self r s x Hfresh Hside') as Hlive1.
  set (self1 := (add_order mem self r).2) in *.
  destruct (wf_best_bid_correct mem self Hwf) as (_ & Hnone & Hsome & _).
  assert (Hbr : bucket (bids_by_price self1) (price (mem !!! r))
                = bucket (bids_by_price self) (price (mem !!! r)) ++ [r]).
  { rewrite Hb1 bool_decide_eq_true_2 //. }
  assert (Hr_wins : (∀ x, live_on mem self "bid" x →
                       price (mem !!! x) < price (mem !!! r)) →
            (get_best_bid self1).1 = Some r).
  { intros Hlow. apply (best_bid_unique mem).
    - done.
    - apply Hlive1. by left.
    - intros x [[-> _]|Hx]%Hlive1; [done|]. specialize (Hlow x Hx). lia.
    - destruct (bucket (bids_by_price self) (price (mem !!! r)))
        as [|y t] eqn:Hold.
      + exists []. by apply bucket_cons_lookup.
      + destruct (bucket_head_live_bid mem self _ y t Hwf Hold) as [Hy Hpy].
        specialize (Hlow y Hy). lia. }
  destruct (get_best_bid self).1 as [old|].
  - destruct (Hsome old eq_refl) as (Hlive & Hmax & rest & Hhead).
    destruct (Z.ltb_spec (price (mem !!! old)) (price (mem !!! r))).
    + apply Hr_wins. intros x Hx. specialize (Hmax x Hx). lia.
    + apply (best_bid_unique mem); [done| | |].
      * apply Hlive1. by right.
      * intros x [[-> _]|Hx]%Hlive1; [done|]. by apply Hmax.
      * apply bucket_lookup in Hhead.
        eexists. apply bucket_cons_lookup. rewrite Hb1 Hhead. done.
  - apply Hr_wins. intros x Hx. destruct (proj1 Hnone eq_refl x Hx).
Qed.

Lemma add_order_updates_best_bid_witness :
  reachable fifo_mem (add_order fifo_mem init 0%nat).2 ∧
  (1 < length fifo_mem)%nat ∧
  orders_by_id (add_order fifo_mem init 0%nat).2
    !! order_id (fifo_mem !!! 1%nat) = None ∧
  side (fifo_mem !!! 1%nat) = "bid" ∧
  (get_best_bid
     (add_order fifo_mem (add_order fifo_mem init 0%nat).2 1%nat).2).1
  = match (get_best_bid (add_order fifo_mem init 0%nat).2).1 with
    | Some old =>
        if price (fifo_mem !!! old) <? price (fifo_mem !!! 1%nat)
        then Some 1%nat else Some old
    | None => Some 1%nat
    end.
Proof.
  assert (reachable fifo_mem (add_order fifo_mem init 0%nat).2) as Hreach.
  { apply reach_add_order; [apply fifo_mem_reachable|simpl; lia]. }
  split; [exact Hreach|]. split; [simpl; lia|]. split; [reflexivity|].
  split; [reflexivity|].
  apply (add_order_updates_best_bid fifo_mem
           (add_order fifo_mem init 0%nat).2 1%nat).
  - exact Hreach.
  - simpl; lia.
  - reflexivity.
  - reflexivity.
Defined.

(** X12. Adding an ask with a fresh identifier to a reachable book moves
    the best ask only if the new price is strictly lower than the best one;
    on a side without asks [get_best_ask] returns the new order. *)
Theorem add_order_updates_best_ask mem self (r : ref) :
  reachable mem self →
  (r < length mem)%nat →
  orders_by_id self !! order_id (mem !!! r) = None →
  side (mem !!! r) = "ask" →
  (get_best_ask (add_order mem self r).2).1
  = match (get_best_ask self).1 with
    | Some old =>
        if price (mem !!! r) <? price (mem !!! old) then Some r else Some old
    | None => Some r
    end.
Proof.
  intros Hwf%reachable_wf Hlen Hfresh Hside.
  assert (side (mem !!! r) = "bid" ∨ side (mem !!! r) = "ask") as Hside'
    by by right.
  destruct (add_order_ok mem self r Hfresh Hside') as (_ & Hidx & _ & Ha1).
  pose proof (wf_add_order mem self r Hlen Hwf) as Hwf1.
  pose proof (λ s x, live_on_add mem self r s x Hfresh Hside') as Hlive1.
  set (self1 := (add_order mem self r).2) in *.
  destruct (wf_best_ask_correct mem self Hwf) as (_ & Hnone & Hsome & _).
  assert (Har : bucket (asks_by_price self1) (price (mem !!! r))
                = bucket (asks_by_price self) (price (mem !!! r)) ++ [r]).
  { rewrite Ha1 bool_decide_eq_true_2 //. }
  assert (Hr_wins : (∀ x, live_on mem self "ask" x →
                       price (mem !!! r) < price (mem !!! x)) →
            (get_best_ask self1).1 = Some r).
  { intros Hhigh. apply (best_ask_unique mem).
    - done.
    - apply Hlive1. by left.
    - intros x [[-> _]|Hx]%Hlive1; [done|]. specialize (Hhigh x Hx). lia.
    - destruct (bucket (asks_by_price self) (price (mem !!! r)))
        as [|y t] eqn:Hold.
      + exists []. by apply bucket_cons_lookup.
      + destruct (bucket_head_live_ask mem self _ y t Hwf Hold) as [Hy Hpy].
        specialize (Hhigh y Hy). lia. }
  destruct (get_best_ask self).1 as [old|].
  - destruct (Hsome old eq_refl) as (Hlive & Hmin & rest & Hhead).
    destruct (Z.ltb_spec (price (mem !!! r)) (price (mem !!! old))).
    + apply Hr_wins. intros x Hx. specialize (Hmin x Hx). lia.
    + apply (best_ask_unique mem); [done| | |].
      * apply Hlive1. by right.
      * intros x [[-> _]|Hx]%Hlive1; [done|]. by apply Hmin.
      * apply bucket_lookup in Hhead.
        eexists. apply bucket_cons_lookup. rewrite Ha1 Hhead. done.
  - apply Hr_wins. intros x Hx. destruct (proj1 Hnone eq_refl x Hx).
Qed.

Lemma add_order_updates_best_ask_witness :
  reachable scenario_mem
    (add_order scenario_mem (add_order scenario_mem init 0%nat).2 1%nat).2 ∧
  (2 < length scenario_mem)%nat ∧
  orders_by_id
    (add_order scenario_mem (add_order scenario_mem init 0%nat).2 1%nat).2
    !! order_id (scenario_mem !!! 2%nat) = None ∧
  side (scenario_mem !!! 2%nat) = "ask" ∧
  (get_best_ask scenario_book).1
  = match (get_best_ask
             (add_order scenario_mem
                (add_order scenario_mem init 0%nat).2 1%nat).2).1 with
    | Some old =>
        if price (scenario_mem !!! 2%nat) <? price (scenario_mem !!! old)
        then Some 2%nat else Some old
    | None => Some 2%nat
    end.
Proof.
  assert (reachable scenario_mem
            (add_order scenario_mem (add_order scenario_mem init 0%nat).2
               1%nat).2) as Hreach.
  { apply reach_add_order; [|simpl; lia].
    apply reach_add_order; [|simpl; lia].
    apply (reach_new_dict [_; _] init).
    apply (reach_new_dict [_] init).
    apply (reach_new_dict [] init).
    apply reach_init. }
  split; [exact Hreach|]. split; [simpl; lia|]. split; [reflexivity|].
  split; [reflexivity|].
  apply (add_order_updates_best_ask scenario_mem
           (add_order scenario_mem (add_order scenario_mem init 0%nat).2
              1%nat).2 2%nat).
  - exact Hreach.
  - simpl; lia.
  - reflexivity.
  - reflexivity.
Defined.

(** * More about the naive book *)

Section naive_more.
Implicit Types (mem : Store) (nb : Naive.NaiveOrderBook) (l : list ref).

Lemma sort_insert_perm before key (x : ref) l :
  sort_insert before key x l ≡ₚ x :: l.
Proof.
  induction l as [|y l IH]; simpl; [done|].
  destruct (before (key x) (key y)); [done|].
  rewrite IH. apply Permutation_swap.
Qed.

Lemma list_sort_perm before key l : list_sort before key l ≡ₚ l.
Proof.
  induction l as [|x l IH]; simpl; [done|].
  by rewrite sort_insert_perm IH.
Qed.

Lemma list_sort_elem_of before key l (x : ref) :
  x ∈ list_sort before key l ↔ x ∈ l.
Proof. by rewrite list_sort_perm. Qed.

(** Sorting a sorted list gives the list back. *)
Lemma list_sort_sorted_id before key l :
  StronglySorted (λ a b, before (key a) (key b) = true) l →
  list_sort before key l = l.
Proof.
  induction 1 as [|x l Hs IH Hall]; simpl; [done|]. rewrite IH.
  destruct l as [|y t]; simpl; [done|].
  apply Forall_cons in Hall as [-> _]. done.
Qed.

Lemma sort_bids_id mem l :
  StronglySorted (λ x y, Naive.price_of mem y ≤ Naive.price_of mem x) l →
  Naive.sort_bids mem l = l.
Proof.
  intros Hs. apply list_sort_sorted_id.
  eapply StronglySorted_weaken; [|exact Hs].
  intros x y _ _ Hxy. simpl in Hxy. apply Z.geb_le. lia.
Qed.

Lemma sort_asks_id mem l :
  StronglySorted (λ x y, Naive.price_of mem x ≤ Naive.price_of mem y) l →
  Naive.sort_asks mem l = l.
Proof.
  intros Hs. apply list_sort_sorted_id.
  eapply StronglySorted_weaken; [|exact Hs].
  intros x y _ _ Hxy. simpl in Hxy. by apply Z.leb_le.
Qed.

(** The linear search: the first order with the identifier, and where. *)
Lemma find_id_spec mem id l :
  match Naive.find_id mem id l with
  | Some (i, x) =>
      ∃ l1 l2, l = l1 ++ x :: l2 ∧ length l1 = i ∧ Naive.id_of mem x = id ∧
               ∀ y, y ∈ l1 → Naive.id_of mem y ≠ id
  | None => ∀ y, y ∈ l → Naive.id_of mem y ≠ id
  end.
Proof.
  unfold Naive.find_id.
  destruct (list_find _ l) as [[i x]|] eqn:Hfind.
  - apply list_find_Some in Hfind as (Hi & Hx & Hfirst).
    apply list_elem_of_split_length in Hi as (l1 & l2 & -> & ->).
    exists l1, l2. split_and!; [done..|].
    intros y [j Hj]%list_elem_of_lookup_1.
    apply (Hfirst j y).
    + by apply lookup_app_l_Some.
    + by apply lookup_lt_Some in Hj.
  - apply list_find_None in Hfind. intros y Hy.
    by eapply Forall_forall in Hfind.
Qed.

Lemma StronglySorted_delete {A} (R : A → A → Prop) (l : list A) i :
  StronglySorted R l → StronglySorted R (delete i l).
Proof.
  intros Hs. revert i. induction Hs as [|x l Hs IH Hall]; intros [|i]; simpl;
    [constructor|constructor|done|].
  constructor; [apply IH|].
  apply Forall_forall. intros y Hy%list_elem_of_delete_inv.
  by eapply Forall_forall in Hall.
Qed.

Lemma naive_wf_extends mem mem' nb :
  extends mem mem' → naive_wf mem nb → naive_wf mem' nb.
Proof.
  intros Hext [Halloc Hbs Has Hsb Hsa].
  assert (Hp : ∀ x, x ∈ Naive.bids nb ∨ x ∈ Naive.asks nb →
            Naive.price_of mem' x = Naive.price_of mem x ∧
            side (mem' !!! x) = side (mem !!! x)).
  { intros x Hx.
    by destruct (extends_price_of mem mem' x Hext (Halloc x Hx)) as (? & _ & ?). }
  split.
  - intros x Hx. destruct Hext as [Hlen _]. specialize (Halloc x Hx). lia.
  - intros x Hx. destruct (Hp x) as [_ ->]; auto.
  - intros x Hx. destruct (Hp x) as [_ ->]; auto.
  - eapply StronglySorted_weaken; [|exact Hsb].
    intros x y Hx Hy. simpl.
    destruct (Hp x) as [-> _]; [auto|]. destruct (Hp y) as [-> _]; auto.
  - eapply StronglySorted_weaken; [|exact Hsa].
    intros x y Hx Hy. simpl.
    destruct (Hp x) as [-> _]; [auto|]. destruct (Hp y) as [-> _]; auto.
Qed.

Lemma naive_wf_add_order mem nb (r : ref) :
  (r < length mem)%nat → naive_wf mem nb →
  naive_wf mem (Naive.add_order mem nb r).2.
Proof.
  intros Hr [Halloc Hbs Has Hsb Hsa]. unfold Naive.add_order.
  destruct (String.eqb (side (mem !!! r)) "bid") eqn:Hbid;
    [|destruct (String.eqb (side (mem !!! r)) "ask") eqn:Hask];
    simpl; [| |done].
  - apply String.eqb_eq in Hbid. split; simpl; [| |done|apply sort_bids_sorted|done].
    + intros x [Hx|Hx]; [|by auto].
      apply list_sort_elem_of in Hx.
      apply elem_of_app in Hx as [?|Heq%list_elem_of_singleton];
        subst; auto.
    + intros x Hx%list_sort_elem_of.
      apply elem_of_app in Hx as [?|Heq%list_elem_of_singleton];
        subst; auto.
  - apply String.eqb_eq in Hask. split; simpl; [|done| |done|apply sort_asks_sorted].
    + intros x [Hx|Hx]; [by auto|].
      apply list_sort_elem_of in Hx.
      apply elem_of_app in Hx as [?|Heq%list_elem_of_singleton];
        subst; auto.
    + intros x Hx%list_sort_elem_of.
      apply elem_of_app in Hx as [?|Heq%list_elem_of_singleton];
        subst; auto.
Qed.

(** On a well-formed book the sort after [amend_order] and [delete_order]
    finds the list in order already. *)
Lemma naive_amend_order_eq mem nb id q :
  naive_wf mem nb →
  Naive.amend_order mem nb id q
  = match Naive.lookup_order mem nb id with
    | Some order =>
        (true, <[order := set_quantity (mem !!! order) q]> mem, nb)
    | None => (false, mem, nb)
    end.
Proof.
  intros Hwf. unfold Naive.amend_order, Naive.lookup_order.
  destruct (Naive.find_id mem id (Naive.bids nb)) as [[i x]|].
  - assert (extends mem (<[x := set_quantity (mem !!! x) q]> mem)) as Hext.
    { split; [by rewrite length_insert|]. intros y _.
      apply lookup_total_set_quantity. }
    destruct (naive_wf_extends _ _ _ Hext Hwf) as [_ _ _ Hsb _].
    rewrite sort_bids_id //. by destruct nb.
  - destruct (Naive.find_id mem id (Naive.asks nb)) as [[i x]|]; [|done].
    assert (extends mem (<[x := set_quantity (mem !!! x) q]> mem)) as Hext.
    { split; [by rewrite length_insert|]. intros y _.
      apply lookup_total_set_quantity. }
    destruct (naive_wf_extends _ _ _ Hext Hwf) as [_ _ _ _ Hsa].
    rewrite sort_asks_id //. by destruct nb.
Qed.

Lemma naive_wf_amend_order mem nb id q :
  naive_wf mem nb →
  naive_wf (Naive.amend_order mem nb id q).1.2
           (Naive.amend_order mem nb id q).2.
Proof.
  intros Hwf. rewrite naive_amend_order_eq //.
  destruct (Naive.lookup_order mem nb id) as [x|]; simpl; [|done].
  eapply naive_wf_extends; [|exact Hwf].
  split; [by rewrite length_insert|]. intros y _.
  apply lookup_total_set_quantity.
Qed.

Lemma naive_delete_order_eq mem nb id :
  naive_wf mem nb →
  Naive.delete_order mem nb id
  = match Naive.find_id mem id (Naive.bids nb) with
    | Some (i, _) =>
        (true, Naive.mkBook (delete i (Naive.bids nb)) (Naive.asks nb))
    | None =>
        match Naive.find_id mem id (Naive.asks nb) with
        | Some (i, _) =>
            (true, Naive.mkBook (Naive.bids nb) (delete i (Naive.asks nb)))
        | None => (false, nb)
        end
    end.
Proof.
  intros [_ _ _ Hsb Hsa]. unfold Naive.delete_order.
  destruct (Naive.find_id mem id (Naive.bids nb)) as [[i x]|].
  - rewrite sort_bids_id //. by apply StronglySorted_delete.
  - destruct (Naive.find_id mem id (Naive.asks nb)) as [[i x]|]; [|done].
    rewrite sort_asks_id //. by apply StronglySorted_delete.
Qed.

Lemma naive_wf_delete_order mem nb id :
  naive_wf mem nb → naive_wf mem (Naive.delete_order mem nb id).2.
Proof.
  intros Hwf. rewrite naive_delete_order_eq //.
  destruct Hwf as [Halloc Hbs Has Hsb Hsa].
  destruct (Naive.find_id mem id (Naive.bids nb)) as [[i x]|]; simpl.
  - split; simpl; [| |done|by apply StronglySorted_delete|done].
    + intros y [Hy%list_elem_of_delete_inv|Hy]; auto.
    + intros y Hy%list_elem_of_delete_inv; auto.
  - destruct (Naive.find_id mem id (Naive.asks nb)) as [[i x]|]; simpl;
      [|done].
    split; simpl; [|done| |done|by apply StronglySorted_delete].
    + intros y [Hy|Hy%list_elem_of_delete_inv]; auto.
    + intros y Hy%list_elem_of_delete_inv; auto.
Qed.

Lemma naive_wf_init : naive_wf [] Naive.init.
Proof.
  split; simpl; try constructor.
  - by intros x [?%elem_of_nil|?%elem_of_nil].
  - by intros x ?%elem_of_nil.
  - by intros x ?%elem_of_nil.
Qed.

Lemma naive_reachable_wf mem nb : naive_reachable mem nb → naive_wf mem nb.
Proof.
  induction 1; eauto using naive_wf_init, naive_wf_extends, extends_new_dict,
    naive_wf_add_order, naive_wf_amend_order, naive_wf_delete_order.
Qed.
End naive_more.

Lemma naive_scenario_reachable :
  naive_reachable scenario_mem naive_scenario_book.
Proof.
  apply (nreach_add_order scenario_mem _ 2%nat); [|simpl; lia].
  apply (nreach_add_order scenario_mem _ 1%nat); [|simpl; lia].
  apply (nreach_add_order scenario_mem _ 0%nat); [|simpl; lia].
  apply (nreach_new_dict [_; _] Naive.init).
  apply (nreach_new_dict [_] Naive.init).
  apply (nreach_new_dict [] Naive.init).
  apply nreach_init.
Defined.

(** X13. In every reachable state of the naive book the bids are in order
    of falling price and the asks of rising price, and each list holds
    orders of its own side only.  [get_best_bid] returns [None] exactly when
    there is no bid, and otherwise a bid of the book whose price no bid
    exceeds; [get_best_ask] returns [None] exactly when there is no ask, and
    otherwise an ask of the book of the lowest price. *)
Theorem naive_lists_sorted mem nb :
  naive_reachable mem nb →
  StronglySorted (λ x y, Naive.price_of mem y ≤ Naive.price_of mem x)
                 (Naive.bids nb) ∧
  StronglySorted (λ x y, Naive.price_of mem x ≤ Naive.price_of mem y)
                 (Naive.asks nb) ∧
  (∀ x : ref, x ∈ Naive.bids nb → side (mem !!! x) = "bid") ∧
  (∀ x : ref, x ∈ Naive.asks nb → side (mem !!! x) = "ask") ∧
  (Naive.get_best_bid nb = None ↔ Naive.bids nb = []) ∧
  (Naive.get_best_ask nb = None ↔ Naive.asks nb = []) ∧
  (∀ x : ref, x ∈ Naive.bids nb →
     ∃ r : ref, Naive.get_best_bid nb = Some r ∧ r ∈ Naive.bids nb ∧
                side (mem !!! r) = "bid" ∧
                price (mem !!! x) ≤ price (mem !!! r)) ∧
  (∀ x : ref, x ∈ Naive.asks nb →
     ∃ r : ref, Naive.get_best_ask nb = Some r ∧ r ∈ Naive.asks nb ∧
                side (mem !!! r) = "ask" ∧
                price (mem !!! r) ≤ price (mem !!! x)).
Proof.
  intros [_ Hbs Has Hsb Hsa]%naive_reachable_wf.
  unfold Naive.get_best_bid, Naive.get_best_ask.
  split_and!; [done..| | | |].
  - by destruct (Naive.bids nb).
  - by destruct (Naive.asks nb).
  - intros x Hx. destruct (Naive.bids nb) as [|y t]; [by apply elem_of_nil in Hx|].
    exists y. simpl. split_and!; [done|by left|apply Hbs; by left|].
    apply elem_of_cons in Hx as [->|Hx]; [done|].
    apply StronglySorted_inv in Hsb as [_ Hall].
    by eapply Forall_forall in Hall.
  - intros x Hx. destruct (Naive.asks nb) as [|y t]; [by apply elem_of_nil in Hx|].
    exists y. simpl. split_and!; [done|by left|apply Has; by left|].
    apply elem_of_cons in Hx as [->|Hx]; [done|].
    apply StronglySorted_inv in Hsa as [_ Hall].
    by eapply Forall_forall in Hall.
Qed.

Lemma naive_lists_sorted_witness :
  naive_reachable scenario_mem naive_scenario_book ∧
  StronglySorted
    (λ x y, Naive.price_of scenario_mem y ≤ Naive.price_of scenario_mem x)
    (Naive.bids naive_scenario_book) ∧
  StronglySorted
    (λ x y, Naive.price_of scenario_mem x ≤ Naive.price_of scenario_mem y)
    (Naive.asks naive_scenario_book) ∧
  (∀ x : ref, x ∈ Naive.bids naive_scenario_book →
     side (scenario_mem !!! x) = "bid") ∧
  (∀ x : ref, x ∈ Naive.asks naive_scenario_book →
     side (scenario_mem !!! x) = "ask") ∧
  (Naive.get_best_bid naive_scenario_book = None
   ↔ Naive.bids naive_scenario_book = []) ∧
  (Naive.get_best_ask naive_scenario_book = None
   ↔ Naive.asks naive_scenario_book = []) ∧
  (∀ x : ref, x ∈ Naive.bids naive_scenario_book →
     ∃ r : ref, Naive.get_best_bid naive_scenario_book = Some r ∧
                r ∈ Naive.bids naive_scenario_book ∧
                side (scenario_mem !!! r) = "bid" ∧
                price (scenario_mem !!! x) ≤ price (scenario_mem !!! r)) ∧
  (∀ x : ref, x ∈ Naive.asks naive_scenario_book →
     ∃ r : ref, Naive.get_best_ask naive_scenario_book = Some r ∧
                r ∈ Naive.asks naive_scenario_book ∧
                side (scenario_mem !!! r) = "ask" ∧
                price (scenario_mem !!! r) ≤ price (scenario_mem !!! x)).
Proof.
  split; [apply naive_scenario_reachable|].
  apply (naive_lists_sorted scenario_mem naive_scenario_book).
  apply naive_scenario_reachable.
Defined.

(** The naive book of the scenario: two bids, the higher one first, and one
    ask. *)
Example naive_scenario_best :
  Naive.bids naive_scenario_book = [1; 0]%nat ∧
  Naive.get_best_bid naive_scenario_book = Some 1%nat ∧
  Naive.get_best_ask naive_scenario_book = Some 2%nat.
Proof. by vm_compute. Qed.

(** X14. The naive [add_order] checks the side and nothing else: an order
    of side "bid" or "ask" is always taken, whatever identifiers the book
    holds, and its list then has the old orders and the new one while the
    other list is untouched; with any other side the call raises and the
    book is the one it was. *)
Theorem naive_add_order_checks_side_only mem nb (r : ref) :
  (side (mem !!! r) = "bid" →
     (Naive.add_order mem nb r).1 = Return () ∧
     Naive.bids (Naive.add_order mem nb r).2 ≡ₚ r :: Naive.bids nb ∧
     Naive.asks (Naive.add_order mem nb r).2 = Naive.asks nb) ∧
  (side (mem !!! r) = "ask" →
     (Naive.add_order mem nb r).1 = Return () ∧
     Naive.asks (Naive.add_order mem nb r).2 ≡ₚ r :: Naive.asks nb ∧
     Naive.bids (Naive.add_order mem nb r).2 = Naive.bids nb) ∧
  (side (mem !!! r) ≠ "bid" → side (mem !!! r) ≠ "ask" →
     Naive.add_order mem nb r
     = (Raise (InvalidSideError (side (mem !!! r))), nb)).
Proof.
  unfold Naive.add_order. split_and!.
  - intros ->. simpl. split_and!; [done| |done].
    unfold Naive.sort_bids. rewrite list_sort_perm.
    by rewrite Permutation_app_comm.
  - intros ->. simpl. split_and!; [done| |done].
    unfold Naive.sort_asks. rewrite list_sort_perm.
    by rewrite Permutation_app_comm.
  - intros Hbid%String.eqb_neq Hask%String.eqb_neq. by rewrite Hbid Hask.
Qed.

(** X15. The naive [lookup_order] returns the first order with the
    identifier, bids before asks, and [None] only when no order of the book
    has it. *)
Theorem naive_lookup_order_finds_first mem nb id :
  match Naive.lookup_order mem nb id with
  | Some x =>
      Naive.id_of mem x = id ∧
      (x ∈ Naive.bids nb ∨
       (x ∈ Naive.asks nb ∧
        ∀ y, y ∈ Naive.bids nb → Naive.id_of mem y ≠ id))
  | None =>
      ∀ y, y ∈ Naive.bids nb ∨ y ∈ Naive.asks nb → Naive.id_of mem y ≠ id
  end.
Proof.
  unfold Naive.lookup_order.
  pose proof (find_id_spec mem id (Naive.bids nb)) as Hb.
  pose proof (find_id_spec mem id (Naive.asks nb)) as Ha.
  destruct (Naive.find_id mem id (Naive.bids nb)) as [[i x]|].
  - destruct Hb as (l1 & l2 & -> & _ & ? & _). split; [done|left].
    apply elem_of_app. right. by left.
  - destruct (Naive.find_id mem id (Naive.asks nb)) as [[i x]|].
    + destruct Ha as (l1 & l2 & -> & _ & ? & _). split; [done|right].
      split; [|done]. apply elem_of_app. right. by left.
    + intros y [Hy|Hy]; auto.
Qed.

(** X16. On a reachable naive book [delete_order] takes out exactly the
    order [lookup_order] returns for the identifier, keeps every other order
    where it was, and returns [False] with the book untouched when
    [lookup_order] finds nothing. *)
Theorem naive_delete_order_removes_looked_up mem nb id :
  naive_reachable mem nb →
  match Naive.lookup_order mem nb id with
  | Some x =>
      (Naive.delete_order mem nb id).1 = true ∧
      ∃ l1 l2,
        (Naive.bids nb = l1 ++ x :: l2 ∧
         Naive.bids (Naive.delete_order mem nb id).2 = l1 ++ l2 ∧
         Naive.asks (Naive.delete_order mem nb id).2 = Naive.asks nb) ∨
        (Naive.asks nb = l1 ++ x :: l2 ∧
         Naive.asks (Naive.delete_order mem nb id).2 = l1 ++ l2 ∧
         Naive.bids (Naive.delete_order mem nb id).2 = Naive.bids nb)
  | None => Naive.delete_order mem nb id = (false, nb)
  end.
Proof.
  intros Hwf%naive_reachable_wf. rewrite naive_delete_order_eq //.
  unfold Naive.lookup_order.
  pose proof (find_id_spec mem id (Naive.bids nb)) as Hb.
  pose proof (find_id_spec mem id (Naive.asks nb)) as Ha.
  destruct (Naive.find_id mem id (Naive.bids nb)) as [[i x]|].
  - destruct Hb as (l1 & l2 & Hl & <- & _). simpl. split; [done|].
    exists l1, l2. left. by rewrite Hl delete_middle.
  - destruct (Naive.find_id mem id (Naive.asks nb)) as [[i x]|]; [|done].
    destruct Ha as (l1 & l2 & Hl & <- & _). simpl. split; [done|].
    exists l1, l2. right. by rewrite Hl delete_middle.
Qed.

Lemma naive_delete_order_removes_looked_up_witness :
  naive_reachable scenario_mem naive_scenario_book ∧
  match Naive.lookup_order scenario_mem naive_scenario_book 1 with
  | Some x =>
      (Naive.delete_order scenario_mem naive_scenario_book 1).1 = true ∧
      ∃ l1 l2,
        (Naive.bids naive_scenario_book = l1 ++ x :: l2 ∧
         Naive.bids (Naive.delete_order scenario_mem naive_scenario_book 1).2
         = l1 ++ l2 ∧
         Naive.asks (Naive.delete_order scenario_mem naive_scenario_book 1).2
         = Naive.asks naive_scenario_book) ∨
        (Naive.asks naive_scenario_book = l1 ++ x :: l2 ∧
         Naive.asks (Naive.delete_order scenario_mem naive_scenario_book 1).2
         = l1 ++ l2 ∧
         Naive.bids (Naive.delete_order scenario_mem naive_scenario_book 1).2
         = Naive.bids naive_scenario_book)
  | None =>
      Naive.delete_order scenario_mem naive_scenario_book 1
      = (false, naive_scenario_book)
  end.
Proof.
  split; [apply naive_scenario_reachable|].
  apply (naive_delete_order_removes_looked_up scenario_mem
           naive_scenario_book 1).
  apply naive_scenario_reachable.
Defined.

(** X17. On a reachable naive book [amend_order] writes the new quantity
    into the order [lookup_order] returns for the identifier and returns
    [True]; the lists are as they were, the sort finding them in order.
    When [lookup_order] finds nothing it returns [False] and writes
    nothing. *)
Theorem naive_amend_order_amends_looked_up mem nb id q :
  naive_reachable mem nb →
  Naive.amend_order mem nb id q
  = match Naive.lookup_order mem nb id with
    | Some order =>
        (true, <[order := set_quantity (mem !!! order) q]> mem, nb)
    | None => (false, mem, nb)
    end.
Proof. intros Hwf%naive_reachable_wf. by apply naive_amend_order_eq. Qed.

Lemma naive_amend_order_amends_looked_up_witness :
  naive_reachable scenario_mem naive_scenario_book ∧
  Naive.amend_order scenario_mem naive_scenario_book 1 20
  = match Naive.lookup_order scenario_mem naive_scenario_book 1 with
    | Some order =>
        (true,
         <[order := set_quantity (scenario_mem !!! order) 20]> scenario_mem,
         naive_scenario_book)
    | None => (false, scenario_mem, naive_scenario_book)
    end.
Proof.
  split; [apply naive_scenario_reachable|].
  apply (naive_amend_order_amends_looked_up scenario_mem
           naive_scenario_book 1 20).
  apply naive_scenario_reachable.
Defined.

(** X18. The index and the ladder hold one and the same dict: on a
    reachable book, once [amend_order] has amended an order of side "bid" or
    "ask", the order [lookup_order] returns and the order found in
    [get_orders_at_price] at its price and side are that same object and
    carry the new quantity with the old identifier, price and side. *)
Theorem amend_order_seen_on_both_paths mem self id q (r : ref) :
  reachable mem self →
  orders_by_id self !! id = Some r →
  side (mem !!! r) = "bid" ∨ side (mem !!! r) = "ask" →
  lookup_order self id = Some r ∧
  r ∈ get_orders_at_price self (price (mem !!! r)) (Some (side (mem !!! r))) ∧
  (amend_order mem self id q).2 !!! r
  = mkOrder id (price (mem !!! r)) q (side (mem !!! r)).
Proof.
  intros Hwf%reachable_wf Hr Hside.
  pose proof Hwf as [Hid _ _ Hbc Hac _ _]. destruct (Hid _ _ Hr) as [Hlen Hrid].
  split_and!; [done| |].
  - rewrite get_orders_at_price_bucket.
    destruct Hside as [Hs|Hs]; rewrite Hs; simpl; rewrite ?app_nil_r.
    + destruct (Hbc _ _ Hr Hs) as (l & Hl & Hin). by rewrite /bucket Hl.
    + destruct (Hac _ _ Hr Hs) as (l & Hl & Hin). by rewrite /bucket Hl.
  - unfold amend_order. rewrite Hr. simpl.
    rewrite list_lookup_total_insert_eq //. unfold set_quantity.
    by rewrite Hrid.
Qed.

Lemma amend_order_seen_on_both_paths_witness :
  reachable scenario_mem scenario_book ∧
  orders_by_id scenario_book !! 1 = Some 0%nat ∧
  (side (scenario_mem !!! 0%nat) = "bid" ∨
   side (scenario_mem !!! 0%nat) = "ask") ∧
  lookup_order scenario_book 1 = Some 0%nat ∧
  0%nat ∈ get_orders_at_price scenario_book (price (scenario_mem !!! 0%nat))
            (Some (side (scenario_mem !!! 0%nat))) ∧
  (amend_order scenario_mem scenario_book 1 20).2 !!! 0%nat
  = mkOrder 1 (price (scenario_mem !!! 0%nat)) 20
            (side (scenario_mem !!! 0%nat)).
Proof.
  split; [apply scenario_reachable|]. split; [reflexivity|].
  split; [by left|].
  apply (amend_order_seen_on_both_paths scenario_mem scenario_book 1 20 0%nat).
  - apply scenario_reachable.
  - reflexivity.
  - by left.
Defined.

(** X19. Which error [add_order] raises: the identifier is tested first, so
    an order whose identifier is indexed gets the duplicate error whatever
    its side; with a fresh identifier the call returns normally exactly when
    the side is "bid" or "ask" and raises the side error otherwise. *)
Theorem add_order_outcome mem self (r : ref) :
  (add_order mem self r).1
  = match orders_by_id self !! order_id (mem !!! r) with
    | Some _ => Raise (DuplicateOrderError (order_id (mem !!! r)))
    | None =>
        if bool_decide (side (mem !!! r) = "bid" ∨ side (mem !!! r) = "ask")
        then Return ()
        else Raise (InvalidSideError (side (mem !!! r)))
    end.
Proof.
  unfold add_order.
  destruct (orders_by_id self !! order_id (mem !!! r)); [done|].
  destruct (String.eqb (side (mem !!! r)) "bid") eqn:Hbid.
  { apply String.eqb_eq in Hbid. rewrite bool_decide_eq_true_2; [by left|].
    by destruct (bids_by_price self !! _). }
  destruct (String.eqb (side (mem !!! r)) "ask") eqn:Hask.
  { apply String.eqb_eq in Hask. rewrite bool_decide_eq_true_2; [by right|].
    by destruct (asks_by_price self !! _). }
  apply String.eqb_neq in Hbid, Hask.
  rewrite bool_decide_eq_false_2; [by intros [?|?]|]. done.
Qed.

(** X20. What a best-price query leaves on the heap of a reachable book:
    when it finds nothing the heap is empty, and when it finds an order the
    top of the heap is that order's price (negated for bids), so no stale
    entry is left in front of it. *)
Theorem best_query_cleans_heap_top mem self :
  reachable mem self →
  match (get_best_bid self).1 with
  | Some r => head (bid_heap (get_best_bid self).2) = Some (- price (mem !!! r))
  | None => bid_heap (get_best_bid self).2 = []
  end ∧
  match (get_best_ask self).1 with
  | Some r => head (ask_heap (get_best_ask self).2) = Some (price (mem !!! r))
  | None => ask_heap (get_best_ask self).2 = []
  end.
Proof.
  intros [_ Hb Ha _ _ _ _]%reachable_wf.
  unfold get_best_bid, get_best_ask.
  rewrite best_bid_loop_drain best_ask_loop_drain. split.
  - destruct (drain_spec Z.opp (bids_by_price self) (bid_heap self))
      as (_ & _ & _ & Hfound).
    destruct (drain Z.opp (bids_by_price self) (bid_heap self))
      as [[r|] heap]; simpl in *; [|done].
    destruct Hfound as (x & heap' & rest & -> & Hx). simpl.
    destruct (Hb _ _ Hx) as (_ & _ & Hel).
    destruct (Hel r) as (Hp & _); [by left|]. rewrite Hp. f_equal. lia.
  - destruct (drain_spec (λ p, p) (asks_by_price self) (ask_heap self))
      as (_ & _ & _ & Hfound).
    destruct (drain (λ p, p) (asks_by_price self) (ask_heap self))
      as [[r|] heap]; simpl in *; [|done].
    destruct Hfound as (x & heap' & rest & -> & Hx). simpl.
    destruct (Ha _ _ Hx) as (_ & _ & Hel).
    by destruct (Hel r) as (<- & _); [by left|].
Qed.

Lemma best_query_cleans_heap_top_witness :
  reachable scenario_mem scenario_after_delete ∧
  match (get_best_bid scenario_after_delete).1 with
  | Some r =>
      head (bid_heap (get_best_bid scenario_after_delete).2)
      = Some (- price (scenario_mem !!! r))
  | None => bid_heap (get_best_bid scenario_after_delete).2 = []
  end ∧
  match (get_best_ask scenario_after_delete).1 with
  | Some r =>
      head (ask_heap (get_best_ask scenario_after_delete).2)
      = Some (price (scenario_mem !!! r))
  | None => ask_heap (get_best_ask scenario_after_delete).2 = []
  end.
Proof.
  split; [apply scenario_after_delete_reachable|].
  apply (best_query_cleans_heap_top scenario_mem scenario_after_delete).
  apply scenario_after_delete_reachable.
Defined.
